(** * Devito: device operators and equation lowering

    A shallow embedding of [devito/core/gpu.py] (option normalization of
    the device operators, the cluster stage of the advanced operator, the
    streaming keys) and of [devito/ir/equations/algorithms.py]
    ([dimension_sort], [lower_exprs], [concretize_subdims]). *)

From Stdlib Require Import ZArith OrderedTypeEx.
From stdpp Require Import functions.
From stdpp Require Import base list strings gmap sorting pretty.

Local Open Scope string_scope.
Set Warnings "-register-all,-clear-no-such-hyp".

(** ** Python values, exceptions and dictionaries *)

(** The exceptions raised by the modelled code. [InvalidOperator] is
    [devito.exceptions.InvalidOperator]; the others are Python built-ins. *)
Inductive exn : Type :=
| KeyError (key : string)
| AttributeError (attr : string)
| TypeError (msg : string)
| ValueError (msg : string)
| InvalidOperator (msg : string).

(** A call either returns or raises. *)
Inductive result (A : Type) : Type :=
| Ok (a : A)
| Raise (e : exn).
Arguments Ok {A} a.
Arguments Raise {A} e.

(** Objects that may be listed under [gpu-fit]: a function, or a tensor
    function whose [values()] are its component functions. *)
Inductive data_obj : Type :=
| DFunction (name : string)
| DTensor (name : string) (components : list string).

#[global] Instance data_obj_eq_dec : EqDecision data_obj.
Proof. solve_decision. Defined.

Definition is_AbstractTensor (f : data_obj) : bool :=
  match f with DFunction _ => false | DTensor _ _ => true end.

Definition values (f : data_obj) : list data_obj :=
  match f with
  | DFunction _ => []
  | DTensor _ cs => DFunction <$> cs
  end.

(** The values an option may hold. [VInf] is [np.inf]; [VParTile] is an
    instance of [ParTile], recorded with the arguments it was built from. *)
Inductive value : Type :=
| VNone
| VBool (b : bool)
| VInt (z : Z)
| VInf
| VStr (s : string)
| VTuple (items : list value)
| VObj (f : data_obj)
| VParTile (items default sparse reduce : value).

(** Python truth value, as tested by [if v] and [not v]. *)
Definition truthy (v : value) : bool :=
  match v with
  | VNone => false
  | VBool b => b
  | VInt z => negb (z =? 0)%Z
  | VInf => true
  | VStr s => negb (String.eqb s "")
  | VTuple l => match l with [] => false | _ => true end
  | VObj _ => true
  | VParTile _ _ _ _ => true
  end.

(** Modelled from the spec: [devito.tools.as_tuple] is not part of the
    two source files. It coerces to a tuple: [None] is the empty tuple, a
    string or a non-iterable object is wrapped in a singleton, a tuple or
    list keeps its items. *)
Definition as_tuple (v : value) : list value :=
  match v with
  | VNone => []
  | VTuple l => l
  | _ => [v]
  end.

(** A Python [dict] with string keys: the entries in insertion order. *)
Definition dict : Type := list (string * value).

Fixpoint dict_get (k : string) (d : dict) : option value :=
  match d with
  | [] => None
  | (k', v) :: d' => if String.eqb k k' then Some v else dict_get k d'
  end.

Fixpoint dict_del (k : string) (d : dict) : dict :=
  match d with
  | [] => []
  | (k', v) :: d' => if String.eqb k k' then dict_del k d' else (k', v) :: dict_del k d'
  end.

(** [d[k] = v]: an existing key keeps its position. *)
Fixpoint dict_set (k : string) (v : value) (d : dict) : dict :=
  match d with
  | [] => [(k, v)]
  | (k', v') :: d' =>
      if String.eqb k k' then (k, v) :: d' else (k', v') :: dict_set k v d'
  end.

(** [d.setdefault(k, v)] (the returned value is not used by the code). *)
Definition dict_setdefault (k : string) (v : value) (d : dict) : dict :=
  match dict_get k d with
  | Some _ => d
  | None => dict_set k v d
  end.

(** [d.update(o)] *)
Definition dict_update (d o : dict) : dict :=
  fold_left (fun acc kv => dict_set kv.1 kv.2 acc) o d.

Definition dict_keys (d : dict) : list string := fst <$> d.

(** [sep.join(l)] *)
Fixpoint join (sep : string) (l : list string) : string :=
  match l with
  | [] => ""
  | [s] => s
  | s :: l' => s ++ sep ++ join sep l'
  end.

(** [needle in hay] for two strings: the substring test. *)
Fixpoint contains (needle hay : string) : bool :=
  String.prefix needle hay ||
  match hay with
  | EmptyString => false
  | String _ hay' => contains needle hay'
  end.

(** The [mode] entry of the keyword arguments: the name of an optimization
    level (a string such as [advanced]) or, for a custom operator, the tuple
    of the requested pass names. *)
Inductive mode_t : Type :=
| ModeName (s : string)
| ModePasses (passes : list string).

(** [i in mode]: substring test on a string, membership on a tuple. *)
Definition py_in (i : string) (c : mode_t) : bool :=
  match c with
  | ModeName s => contains i s
  | ModePasses l => existsb (String.eqb i) l
  end.

(** Equality of lists and of optional values, from the equality of the
    items. *)
Definition list_eqb {A} (eqb : A → A → bool) : list A → list A → bool :=
  fix go l1 l2 :=
    match l1, l2 with
    | [], [] => true
    | a :: l1', b :: l2' => eqb a b && go l1' l2'
    | _, _ => false
    end.

Definition option_eqb {A} (eqb : A → A → bool) (o1 o2 : option A) : bool :=
  match o1, o2 with
  | None, None => true
  | Some a, Some b => eqb a b
  | _, _ => false
  end.

(** ** A state and exception monad over the options dictionary

    [_normalize_kwargs] consumes the user's options [oo] by a sequence of
    [oo.pop] calls; the monad threads [oo] and stops at the first
    exception. *)
Definition M (A : Type) : Type := dict → result (A * dict).

Definition ret {A} (a : A) : M A := fun oo => Ok (a, oo).

Definition bind {A B} (m : M A) (f : A → M B) : M B :=
  fun oo => match m oo with
            | Ok (a, oo') => f a oo'
            | Raise e => Raise e
            end.

Definition raise {A} (e : exn) : M A := fun _ => Raise e.

Definition get_state : M dict := fun oo => Ok (oo, oo).

Declare Scope py_scope.
Delimit Scope py_scope with py.
Notation "x <- c ;; k" := (bind c (fun x => k))
  (at level 100, c at next level, right associativity) : py_scope.

(** [oo.pop(k)]: raises [KeyError] when the key is missing. *)
Definition pop (k : string) : M value :=
  fun oo => match dict_get k oo with
            | Some v => Ok (v, dict_del k oo)
            | None => Raise (KeyError k)
            end.

(** [oo.pop(k, default)] *)
Definition pop_default (k : string) (dflt : value) : M value :=
  fun oo => Ok (default dflt (dict_get k oo), dict_del k oo).

(** [d[k]]: raises [KeyError] when the key is missing. *)
Definition getitem (k : string) (d : dict) : result value :=
  match dict_get k d with
  | Some v => Ok v
  | None => Raise (KeyError k)
  end.

(** [len(v)] *)
Definition py_len (v : value) : result nat :=
  match v with
  | VTuple l => Ok (length l)
  | VStr s => Ok (String.length s)
  | _ => Raise (TypeError "object has no len()")
  end.

(** ** [devito/core/gpu.py]: option normalization *)

(** The keyword arguments of the operator's class methods, as far as the
    modelled methods read them. *)
Record Kwargs : Type := mkKwargs {
  options : dict;
  mode : mode_t
}.

(** The class attributes [_normalize_kwargs] reads through [cls] that are
    defined in [CoreOperator], a base class outside the two source files. *)
Record OperatorClass : Type := mkOperatorClass {
  CSE_MIN_COST : value;
  BLOCK_EAGER : value;
  BLOCK_RELAX : value;
  CIRE_MINGAIN : value;
  CIRE_SCHEDULE : value;
  PAR_CHUNK_NONAFFINE : value;
  DIST_DROP_UNWRITTEN : value;
  EXPAND : value;
  DERIV_SCHEDULE : value;
  MAPIFY_REDUCE : value;
  INDEX_MODE : value;
  ERRCTL : value
}.

Module DeviceOperatorMixin.

Definition BLOCK_LEVELS : value := VInt 0.

(** Assuming all functions fit into the gpu memory. *)
Definition GPU_FIT : value := VStr "all-fallback".

(** The list comprehension of [_normalize_gpu_fit]:
    [f.values() if f.is_AbstractTensor else [f]] for each listed [f]. A
    value that is no data object has no attribute [is_AbstractTensor]. *)
Fixpoint gpu_fit_items (gfit : list value) : result (list data_obj) :=
  match gfit with
  | [] => Ok []
  | VObj f :: gfit' =>
      match gpu_fit_items gfit' with
      | Ok r => Ok ((if is_AbstractTensor f then values f else [f]) ++ r)%list
      | Raise e => Raise e
      end
  | _ :: _ => Raise (AttributeError "is_AbstractTensor")
  end.

(** [_normalize_gpu_fit(cls, oo, **kwargs)]. The [try] block pops
    [gpu-fit]; only the [KeyError] of a missing key reaches the handler.
    Python lists the elements of the set in an order of its own; the model
    lists them by first occurrence. *)
Definition _normalize_gpu_fit (kwargs : Kwargs) : M value :=
  fun oo =>
    match pop "gpu-fit" oo with
    | Ok (v, oo') =>
        match gpu_fit_items (as_tuple v) with
        | Ok gfit => Ok (VTuple (VObj <$> remove_dups gfit), oo')
        | Raise e => Raise e
        end
    | Raise (KeyError _) =>
        if py_in "tasking" (mode kwargs) || py_in "streaming" (mode kwargs)
        then Ok (VTuple [VNone], oo)
        else Ok (VTuple (as_tuple GPU_FIT), oo)
    | Raise e => Raise e
    end.

Local Open Scope py_scope.

(** [_normalize_kwargs(cls, **kwargs)]: every recognized option is popped
    from [oo], in the order of the source, into the new dictionary [o];
    what is left in [oo] is unsupported. *)
Definition _normalize_kwargs (cls : OperatorClass) (kwargs : Kwargs)
  : result Kwargs :=
  let body : M dict :=
    (* Execution modes *)
    mpi <- pop "mpi";;
    (* Buffering *)
    buf_async_degree <- pop_default "buf-async-degree" VNone;;
    (* Fusion *)
    fuse_tasks <- pop_default "fuse-tasks" (VBool false);;
    (* CSE *)
    cse_min_cost <- pop_default "cse-min-cost" (CSE_MIN_COST cls);;
    (* Blocking *)
    blockinner <- pop_default "blockinner" (VBool true);;
    blocklevels <- pop_default "blocklevels" BLOCK_LEVELS;;
    blockeager <- pop_default "blockeager" (BLOCK_EAGER cls);;
    blocklazy <- pop_default "blocklazy" (VBool (negb (truthy blockeager)));;
    blockrelax <- pop_default "blockrelax" (BLOCK_RELAX cls);;
    skewing <- pop_default "skewing" (VBool false);;
    (* CIRE *)
    cire_maxpar <- pop_default "cire-maxpar" (VBool true);;
    cire_ftemps <- pop_default "cire-ftemps" (VBool false);;
    cire_mingain <- pop_default "cire-mingain" (CIRE_MINGAIN cls);;
    cire_schedule <- pop_default "cire-schedule" (CIRE_SCHEDULE cls);;
    (* GPU parallelism *)
    par_tile <- pop_default "par-tile" (VBool false);;
    par_tile_sparse <- pop_default "par-tile-sparse" VNone;;
    par_tile_reduce <- pop_default "par-tile-reduce" VNone;;
    par_chunk_nonaffine <-
      pop_default "par-chunk-nonaffine" (PAR_CHUNK_NONAFFINE cls);;
    par_disabled <- pop_default "par-disabled" (VBool true);;
    gpu_fit <- _normalize_gpu_fit kwargs;;
    gpu_create <- pop_default "gpu-create" (VTuple []);;
    (* Distributed parallelism *)
    dist_drop_unwritten <-
      pop_default "dist-drop-unwritten" (DIST_DROP_UNWRITTEN cls);;
    (* Code generation options for derivatives *)
    expand <- pop_default "expand" (EXPAND cls);;
    deriv_schedule <- pop_default "deriv-schedule" (DERIV_SCHEDULE cls);;
    deriv_unroll <- pop_default "deriv-unroll" (VBool false);;
    (* Misc *)
    opt_comms <- pop_default "opt-comms" (VBool true);;
    linearize <- pop_default "linearize" (VBool false);;
    mapify_reduce <- pop_default "mapify-reduce" (MAPIFY_REDUCE cls);;
    index_mode <- pop_default "index-mode" (INDEX_MODE cls);;
    place_transfers <- pop_default "place-transfers" (VBool true);;
    errctl <- pop_default "errctl" (ERRCTL cls);;
    oo <- get_state;;
    match oo with
    | _ :: _ =>
        raise (InvalidOperator
                 ("Unsupported optimization options: ["
                    ++ join ", " (dict_keys oo) ++ "]"))
    | [] =>
        ret [ ("mpi", mpi);
              ("parallel", VBool true);
              ("buf-async-degree", buf_async_degree);
              ("fuse-tasks", fuse_tasks);
              ("cse-min-cost", cse_min_cost);
              ("blockinner", blockinner);
              ("blocklevels", blocklevels);
              ("blockeager", blockeager);
              ("blocklazy", blocklazy);
              ("blockrelax", blockrelax);
              ("skewing", skewing);
              ("min-storage", VBool false);
              ("cire-rotate", VBool false);
              ("cire-maxpar", cire_maxpar);
              ("cire-ftemps", cire_ftemps);
              ("cire-mingain", cire_mingain);
              ("cire-schedule", cire_schedule);
              ("par-tile",
                VParTile par_tile (VTuple [VInt 32; VInt 4; VInt 4])
                         par_tile_sparse par_tile_reduce);
              ("par-collapse-ncores", VInt 1);
              ("par-collapse-work", VInt 1);
              ("par-chunk-nonaffine", par_chunk_nonaffine);
              ("par-dynamic-work", VInf);
              ("par-nested", VInf);
              ("par-disabled", par_disabled);
              ("gpu-fit", gpu_fit);
              ("gpu-create", VTuple (as_tuple gpu_create));
              ("dist-drop-unwritten", dist_drop_unwritten);
              ("expand", expand);
              ("deriv-schedule", deriv_schedule);
              ("deriv-unroll", deriv_unroll);
              ("opt-comms", opt_comms);
              ("linearize", linearize);
              ("mapify-reduce", mapify_reduce);
              ("index-mode", index_mode);
              ("place-transfers", place_transfers);
              ("errctl", errctl) ]
    end in
  match body (options kwargs) with
  | Ok (o, oo) =>
      (* [kwargs['options'].update(o)] on the emptied [oo] *)
      Ok (mkKwargs (dict_update oo o) (mode kwargs))
  | Raise e => Raise e
  end.

(** The options [_normalize_kwargs] pops, in the order of the source. *)
Definition recognized : list string :=
  [ "mpi"; "buf-async-degree"; "fuse-tasks"; "cse-min-cost"; "blockinner";
    "blocklevels"; "blockeager"; "blocklazy"; "blockrelax"; "skewing";
    "cire-maxpar"; "cire-ftemps"; "cire-mingain"; "cire-schedule";
    "par-tile"; "par-tile-sparse"; "par-tile-reduce"; "par-chunk-nonaffine";
    "par-disabled"; "gpu-fit"; "gpu-create"; "dist-drop-unwritten";
    "expand"; "deriv-schedule"; "deriv-unroll"; "opt-comms"; "linearize";
    "mapify-reduce"; "index-mode"; "place-transfers"; "errctl" ].

(** The value [_normalize_gpu_fit] returns on the options [oo]. *)
Definition resolve_gpu_fit (kwargs : Kwargs) (oo : dict) : result value :=
  match _normalize_gpu_fit kwargs oo with
  | Ok (v, _) => Ok v
  | Raise e => Raise e
  end.

(** The normalized options, for the options [oo] of the user, the
    popped [mpi] entry and the resolved [gpu-fit]. *)
Definition normalized (cls : OperatorClass) (oo : dict) (mpi gpu_fit : value)
  : dict :=
  let opt k dflt := default dflt (dict_get k oo) in
  [ ("mpi", mpi);
    ("parallel", VBool true);
    ("buf-async-degree", opt "buf-async-degree" VNone);
    ("fuse-tasks", opt "fuse-tasks" (VBool false));
    ("cse-min-cost", opt "cse-min-cost" (CSE_MIN_COST cls));
    ("blockinner", opt "blockinner" (VBool true));
    ("blocklevels", opt "blocklevels" BLOCK_LEVELS);
    ("blockeager", opt "blockeager" (BLOCK_EAGER cls));
    ("blocklazy",
      opt "blocklazy"
          (VBool (negb (truthy (opt "blockeager" (BLOCK_EAGER cls))))));
    ("blockrelax", opt "blockrelax" (BLOCK_RELAX cls));
    ("skewing", opt "skewing" (VBool false));
    ("min-storage", VBool false);
    ("cire-rotate", VBool false);
    ("cire-maxpar", opt "cire-maxpar" (VBool true));
    ("cire-ftemps", opt "cire-ftemps" (VBool false));
    ("cire-mingain", opt "cire-mingain" (CIRE_MINGAIN cls));
    ("cire-schedule", opt "cire-schedule" (CIRE_SCHEDULE cls));
    ("par-tile",
      VParTile (opt "par-tile" (VBool false))
               (VTuple [VInt 32; VInt 4; VInt 4])
               (opt "par-tile-sparse" VNone) (opt "par-tile-reduce" VNone));
    ("par-collapse-ncores", VInt 1);
    ("par-collapse-work", VInt 1);
    ("par-chunk-nonaffine",
      opt "par-chunk-nonaffine" (PAR_CHUNK_NONAFFINE cls));
    ("par-dynamic-work", VInf);
    ("par-nested", VInf);
    ("par-disabled", opt "par-disabled" (VBool true));
    ("gpu-fit", gpu_fit);
    ("gpu-create", VTuple (as_tuple (opt "gpu-create" (VTuple []))));
    ("dist-drop-unwritten",
      opt "dist-drop-unwritten" (DIST_DROP_UNWRITTEN cls));
    ("expand", opt "expand" (EXPAND cls));
    ("deriv-schedule", opt "deriv-schedule" (DERIV_SCHEDULE cls));
    ("deriv-unroll", opt "deriv-unroll" (VBool false));
    ("opt-comms", opt "opt-comms" (VBool true));
    ("linearize", opt "linearize" (VBool false));
    ("mapify-reduce", opt "mapify-reduce" (MAPIFY_REDUCE cls));
    ("index-mode", opt "index-mode" (INDEX_MODE cls));
    ("place-transfers", opt "place-transfers" (VBool true));
    ("errctl", opt "errctl" (ERRCTL cls)) ].

(** The keys of the user's options that [_normalize_kwargs] does not
    pop, in the order of the dictionary. *)
Definition unsupported (oo : dict) : list string :=
  filter (λ k, k ∉ recognized) (dict_keys oo).

(** Options [_normalize_kwargs] returns on: the mandatory [mpi] entry
    is there, [gpu-fit] resolves, and every key is one it pops. *)
Definition normalizable (kwargs : Kwargs) : Prop :=
  is_Some (dict_get "mpi" (options kwargs))
  ∧ (∃ g, resolve_gpu_fit kwargs (options kwargs) = Ok g)
  ∧ ∀ k, k ∈ dict_keys (options kwargs) → k ∈ recognized.

End DeviceOperatorMixin.

(** Options the device operators normalize without an exception: as
    [DeviceOperatorMixin.normalizable], and the [openmp] entry may be given
    ("it may or may not have been provided"). *)
Definition device_normalizable (kwargs : Kwargs) : Prop :=
  is_Some (dict_get "mpi" (options kwargs))
  ∧ (∃ g, DeviceOperatorMixin.resolve_gpu_fit kwargs (options kwargs) = Ok g)
  ∧ ∀ k, k ∈ dict_keys (options kwargs) →
         k ∈ DeviceOperatorMixin.recognized ∨ k = "openmp".

(** A class to run the examples with; the values of the attributes that
    [CoreOperator] defines are placeholders. *)
Definition example_cls : OperatorClass :=
  {| CSE_MIN_COST := VInt 1;
     BLOCK_EAGER := VBool true;
     BLOCK_RELAX := VBool false;
     CIRE_MINGAIN := VInt 10;
     CIRE_SCHEDULE := VStr "automatic";
     PAR_CHUNK_NONAFFINE := VInt 3;
     DIST_DROP_UNWRITTEN := VBool true;
     EXPAND := VBool true;
     DERIV_SCHEDULE := VStr "automatic";
     MAPIFY_REDUCE := VBool false;
     INDEX_MODE := VStr "int64";
     ERRCTL := VNone |}.

(** *** OpenMP *)
Module DeviceOmpOperatorMixin.

(** [_normalize_kwargs]: linearization is enforced unless the user chose,
    the [openmp] entry is dropped, and [super()._normalize_kwargs], which is
    [DeviceOperatorMixin]'s for every device operator class, gets the
    options [super_options oo]. *)
Definition super_options (oo : dict) : dict :=
  let oo := dict_setdefault "linearize" (VBool true) oo in
  dict_del "openmp" oo.

Definition _normalize_kwargs (cls : OperatorClass) (kwargs : Kwargs)
  : result Kwargs :=
  let oo := super_options (options kwargs) in
  match DeviceOperatorMixin._normalize_kwargs cls (mkKwargs oo (mode kwargs)) with
  | Ok kwargs' =>
      Ok (mkKwargs (dict_set "openmp" (VBool true) (options kwargs'))
                   (mode kwargs'))
  | Raise e => Raise e
  end.

(** [_check_kwargs] *)
Definition _check_kwargs (kwargs : Kwargs) : result unit :=
  match getitem "gpu-create" (options kwargs) with
  | Ok v =>
      match py_len v with
      | Ok 0 => Ok tt
      | Ok (S _) =>
          Raise (InvalidOperator "Unsupported gpu-create option for omp operators")
      | Raise e => Raise e
      end
  | Raise e => Raise e
  end.

End DeviceOmpOperatorMixin.

(** *** OpenACC *)
Module DeviceAccOperatorMixin.

Definition super_options (oo : dict) : dict := dict_del "openmp" oo.

Definition _normalize_kwargs (cls : OperatorClass) (kwargs : Kwargs)
  : result Kwargs :=
  let oo := super_options (options kwargs) in
  match DeviceOperatorMixin._normalize_kwargs cls (mkKwargs oo (mode kwargs)) with
  | Ok kwargs' =>
      Ok (mkKwargs (dict_set "openacc" (VBool true) (options kwargs'))
                   (mode kwargs'))
  | Raise e => Raise e
  end.

End DeviceAccOperatorMixin.

(** ** The cluster stage of [DeviceAdvOperator] *)

(** The cluster passes are defined in [devito.passes.clusters]; a run of
    the stage is recorded as the sequence of the passes it applies. *)
Inductive pass : Type :=
| fuse (toposort : bool)
| fission
| cire (mode : string)
| Lift
| blocking
| factorize
| optimize_pows
| cse.

#[global] Instance pass_eq_dec : EqDecision pass.
Proof. solve_decision. Defined.

Module DeviceAdvOperator.

(** [_specialize_clusters]: the passes applied, in order. *)
Definition _specialize_clusters (kwargs : Kwargs) : result (list pass) :=
  let options := options kwargs in
  (* Toposort+Fusion, fission, invariants *)
  let applied := [fuse true; fission; cire "invariants"; Lift] in
  match getitem "blockeager" options with
  | Raise e => Raise e
  | Ok blockeager =>
      (* Blocking to define thread blocks *)
      let applied := (applied ++ if truthy blockeager then [blocking] else [])%list in
      (* Reduce flops, fuse again, CSE *)
      let applied :=
        (applied ++ [cire "sops"; factorize; optimize_pows; fuse false; cse])%list in
      match getitem "blocklazy" options with
      | Raise e => Raise e
      | Ok blocklazy =>
          (* Blocking to define thread blocks *)
          Ok (applied ++ if truthy blocklazy then [blocking] else [])%list
      end
  end.

End DeviceAdvOperator.

(** The cluster stage of one compilation: the operator normalizes the
    options handed to it ([normalize] is the [_normalize_kwargs] of its
    class) and runs [_specialize_clusters] on the result. *)
Definition adv_cluster_stage
    (normalize : OperatorClass → Kwargs → result Kwargs)
    (cls : OperatorClass) (kwargs : Kwargs) : result (list pass) :=
  match normalize cls kwargs with
  | Ok kwargs' => DeviceAdvOperator._specialize_clusters kwargs'
  | Raise e => Raise e
  end.

(** The passes of the cluster stage when blocking is applied eagerly
    ([eager]) and lazily ([lazy]). *)
Definition adv_passes (eager lazy : bool) : list pass :=
  [fuse true; fission; cire "invariants"; Lift]
    ++ (if eager then [blocking] else [])
    ++ [cire "sops"; factorize; optimize_pows; fuse false; cse]
    ++ (if lazy then [blocking] else []).

(** How often a run applies [blocking]. *)
Definition blocking_count (applied : list pass) : nat :=
  length (filter (λ p, p = blocking) applied).

(** ** [devito/core/gpu.py]: the streaming keys *)

Module Streaming.
Section streaming.

(** Dimensions are compared and collected in sets; nothing else is asked
    of them here. *)
Context {Dimension : Type} `{Countable Dimension}.

(** A function, with the time dimension [f.time_dim] along which its data
    is streamed. *)
Record Function : Type := mkFunction {
  fname : string;
  time_dim : Dimension
}.

(** A cluster, as far as the keys read it: the functions it writes
    ([c.scope.writes]) and reads ([c.scope.reads]), and, for a dimension
    [d], the dimension of the interval [c.ispace[d]] of its iteration
    space. *)
Record Cluster : Type := mkCluster {
  writes : list Function;
  reads : list Function;
  ispace_dim : Dimension → Dimension
}.

(** [devito.passes.is_on_device(f, gpu_fit)] *)
Variable is_on_device : Function → value → bool.

(** What [stream_key] returns: [None], one dimension, or a set of them. *)
Inductive stream_key_result : Type :=
| SKNone
| SKDim (d : Dimension)
| SKSet (s : gset Dimension).

(** [as_tuple] on the result of [stream_key]. *)
Definition as_tuple_key (r : stream_key_result) : list Dimension :=
  match r with
  | SKNone => []
  | SKDim d => [d]
  | SKSet s => elements s
  end.

(** [s.pop()] caught on [KeyError]: an element of the set, or [None] when
    the set is empty. *)
Definition pop_or_none (s : gset Dimension) : option Dimension :=
  head (elements s).

(** The loop of [stream_key]: the time dimensions of the functions that
    are not on the device. [options['gpu-fit']] is read for each item. *)
Fixpoint stream_dims (options : dict) (items : list Function)
  : result (gset Dimension) :=
  match items with
  | [] => Ok ∅
  | f :: items' =>
      match getitem "gpu-fit" options with
      | Raise e => Raise e
      | Ok gpu_fit =>
          match stream_dims options items' with
          | Raise e => Raise e
          | Ok retval =>
              Ok (if is_on_device f gpu_fit then retval
                  else {[ time_dim f ]} ∪ retval)
          end
      end
  end.

(** [stream_key_wrap(options)] *)
Definition stream_key_wrap (options : dict) (items : list Function)
  : result stream_key_result :=
  match stream_dims options items with
  | Raise e => Raise e
  | Ok retval =>
      if decide (1 < size retval) then Ok (SKSet retval)
      else match pop_or_none retval with
           | Some d => Ok (SKDim d)
           | None => Ok SKNone
           end
  end.

(** [task_wrap(stream_key)] *)
Definition task_wrap
    (stream_key : list Function → result stream_key_result) (c : Cluster)
  : result (option Dimension) :=
  match stream_key (writes c) with
  | Raise e => Raise e
  | Ok r =>
      let dims : gset Dimension :=
        list_to_set (ispace_dim c <$> as_tuple_key r) in
      if decide (1 < size dims)
      then Raise (ValueError "Cannot determine a unique task Dimension")
      else Ok (pop_or_none dims)
  end.

(** [memcpy_wrap(stream_key, task_key)]. A dimension is a true value, so
    [if task_key(c)] holds exactly when [task_key] returns one. *)
Definition memcpy_wrap
    (stream_key : list Function → result stream_key_result)
    (task_key : Cluster → result (option Dimension)) (c : Cluster)
  : result (option Dimension) :=
  match task_key c with
  | Raise e => Raise e
  | Ok (Some _) =>
      (* Writes would take precedence over reads *)
      Ok None
  | Ok None =>
      match stream_key (reads c) with
      | Raise e => Raise e
      | Ok r =>
          let dims : gset Dimension :=
            list_to_set (ispace_dim c <$> as_tuple_key r) in
          if decide (1 < size dims)
          then Raise (ValueError "Cannot determine a unique memcpy Dimension")
          else Ok (pop_or_none dims)
      end
  end.

(** The keys as [DeviceCustomOperator._make_clusters_passes_mapper] wires
    them. *)
Definition stream_key (options : dict) := stream_key_wrap options.
Definition task_key (options : dict) := task_wrap (stream_key options).
Definition memcpy_key (options : dict) :=
  memcpy_wrap (stream_key options) (task_key options).

(** The written functions of a cluster that are not on the device. *)
Definition off_device (gpu_fit : value) (fs : list Function) : list Function :=
  filter (λ f, is_on_device f gpu_fit = false) fs.

(** The candidate task dimensions of a cluster: the dimensions of its
    iteration space for the time dimensions of the off-device functions
    it writes. *)
Definition candidates (gpu_fit : value) (c : Cluster) : gset Dimension :=
  list_to_set (ispace_dim c <$> (time_dim <$> off_device gpu_fit (writes c))).

End streaming.
End Streaming.

(** Clusters to run the keys on. Dimensions are named by strings, the
    iteration space holds every dimension as it is, [usave], [vsave] and
    [wsave] are kept on the host, and every other function is on the
    device. *)
Definition host_functions : list string := ["usave"; "vsave"; "wsave"].

Definition example_is_on_device (f : Streaming.Function (Dimension:=string))
    (gpu_fit : value) : bool :=
  bool_decide (Streaming.fname f ∉ host_functions).

Definition example_options : dict := [("gpu-fit", VTuple [VNone])].

Definition usave := Streaming.mkFunction "usave" "time".
Definition vsave := Streaming.mkFunction "vsave" "time_sub0".
Definition wsave := Streaming.mkFunction "wsave" "time_sub1".
Definition example_u := Streaming.mkFunction "u" "time".

Definition cluster_uv : Streaming.Cluster :=
  Streaming.mkCluster [usave; vsave] [example_u] id.
Definition cluster_uw : Streaming.Cluster :=
  Streaming.mkCluster [usave; wsave] [example_u] id.
Definition cluster_u : Streaming.Cluster :=
  Streaming.mkCluster [example_u; usave] [vsave] id.

(** ** [devito/ir/equations/algorithms.py]: [lower_exprs] *)

Module Lowering.

(** A dimension, with the symbol of its spacing ([d.spacing], such as
    [h_x] for [x]). *)
Record Dimension : Type := mkDimension {
  dim_name : string;
  spacing : string
}.

#[global] Instance Dimension_eq_dec : EqDecision Dimension.
Proof. solve_decision. Defined.

(** A function, as far as lowering reads it: its name, its dimensions, the
    left halo+padding size per dimension ([f._size_nodomain.left]), whether
    it is an [Array], and its [initvalue] (expressions of type [E]). *)
Record Function (E : Type) : Type := mkFunction {
  name : string;
  dimensions : list Dimension;
  size_nodomain_left : list Z;
  is_Array : bool;
  initvalue : option (list E)
}.
Arguments mkFunction {E} _ _ _ _ _.
Arguments name {E} _.
Arguments dimensions {E} _.
Arguments size_nodomain_left {E} _.
Arguments is_Array {E} _.
Arguments initvalue {E} _.

(** The dimension map of a subdomain, a dictionary: dimension names to
    the names of the subdimensions that replace them. *)
Abbreviation dimension_map_t := (gmap string string).

(** Symbolic expressions. [Sym] is a symbol (a dimension, a spacing, a
    scalar); [Indexed f idx] is the access [f[idx]]; [FunApp f args] is the
    function [f(args)] not yet indexified; [Eq] is an equation with the
    dimension map of its subdomain, if it has one. The negation [-a] is
    [Mul (Num (-1)) a], as SymPy holds it. *)
Inductive expr : Type :=
| Num (z : Z)
| Sym (s : string)
| Add (a b : expr)
| Mul (a b : expr)
| Indexed (f : Function expr) (indices : list expr)
| FunApp (f : Function expr) (args : list expr)
| Eq (lhs rhs : expr) (subdomain : option dimension_map_t).

(** Structural equality of expressions, the [==] of the dictionary keys. *)
Definition Function_eqb {E} (eqb : E → E → bool) (f g : Function E) : bool :=
  String.eqb (name f) (name g)
  && bool_decide (dimensions f = dimensions g)
  && bool_decide (size_nodomain_left f = size_nodomain_left g)
  && Bool.eqb (is_Array f) (is_Array g)
  && option_eqb (list_eqb eqb) (initvalue f) (initvalue g).

Fixpoint expr_eqb (e1 e2 : expr) : bool :=
  match e1, e2 with
  | Num z1, Num z2 => (z1 =? z2)%Z
  | Sym s1, Sym s2 => String.eqb s1 s2
  | Add a1 b1, Add a2 b2 => expr_eqb a1 a2 && expr_eqb b1 b2
  | Mul a1 b1, Mul a2 b2 => expr_eqb a1 a2 && expr_eqb b1 b2
  | Indexed f1 i1, Indexed f2 i2 =>
      Function_eqb expr_eqb f1 f2 && list_eqb expr_eqb i1 i2
  | FunApp f1 a1, FunApp f2 a2 =>
      Function_eqb expr_eqb f1 f2 && list_eqb expr_eqb a1 a2
  | Eq l1 r1 s1, Eq l2 r2 s2 =>
      expr_eqb l1 l2 && expr_eqb r1 r2 && bool_decide (s1 = s2)
  | _, _ => false
  end.

(** A mapping from expressions to expressions (a Python [dict] keyed by
    expressions): the entries in insertion order. *)
Definition rules : Type := list (expr * expr).

Fixpoint rules_get (k : expr) (r : rules) : option expr :=
  match r with
  | [] => None
  | (k', v) :: r' => if expr_eqb k k' then Some v else rules_get k r'
  end.

Fixpoint rules_set (k v : expr) (r : rules) : rules :=
  match r with
  | [] => [(k, v)]
  | (k', v') :: r' =>
      if expr_eqb k k' then (k, v) :: r' else (k', v') :: rules_set k v r'
  end.

Definition rules_update (r o : rules) : rules :=
  fold_left (λ acc kv, rules_set kv.1 kv.2 acc) o r.

(** The dimension map of a subdomain as a mapping of symbols. *)
Definition dimension_rules (m : dimension_map_t) : rules :=
  (λ kv, (Sym kv.1, Sym kv.2)) <$> map_to_list m.

(** Modelled from the spec: SymPy's [xreplace] is not part of the source
    files. It is the simultaneous substitution of the spec: a node that is
    a key of the mapping is replaced by its value, which is not visited
    again; any other node is rebuilt from its replaced arguments. SymPy's
    re-evaluation of the rebuilt node is not modelled. *)
Fixpoint xreplace (rule : rules) (e : expr) : expr :=
  match rules_get e rule with
  | Some v => v
  | None =>
      match e with
      | Num _ | Sym _ => e
      | Add a b => Add (xreplace rule a) (xreplace rule b)
      | Mul a b => Mul (xreplace rule a) (xreplace rule b)
      | Indexed f indices => Indexed f (map (xreplace rule) indices)
      | FunApp f args => FunApp f (map (xreplace rule) args)
      | Eq lhs rhs subdomain => Eq (xreplace rule lhs) (xreplace rule rhs) subdomain
      end
  end.

(** Modelled from the spec: [devito.symbolics.uxreplace] is not part of
    the source files. It applies a mapping to the whole expression in a
    single simultaneous pass, as [xreplace] does, without re-evaluation. *)
Definition uxreplace (e : expr) (rule : rules) : expr := xreplace rule e.

(** Modelled from the spec: [devito.symbolics.retrieve_indexed] is not part
    of the source files. It finds the indexed accesses of an expression, in
    traversal order; an access is not searched for the accesses nested in
    its indices. Each access is given by its function and its indices. *)
Fixpoint retrieve_indexed (e : expr) : list (Function expr * list expr) :=
  match e with
  | Num _ | Sym _ => []
  | Add a b | Mul a b => retrieve_indexed a ++ retrieve_indexed b
  | Indexed f indices => [(f, indices)]
  | FunApp _ args => concat (map retrieve_indexed args)
  | Eq lhs rhs _ => retrieve_indexed lhs ++ retrieve_indexed rhs
  end%list.

(** Modelled from the spec: [expr.find(AbstractFunction)] is SymPy's. It
    finds the function references of an expression at any depth. *)
Fixpoint find_functions (e : expr) : list (Function expr * list expr) :=
  match e with
  | Num _ | Sym _ => []
  | Add a b | Mul a b => find_functions a ++ find_functions b
  | Indexed _ indices => concat (map find_functions indices)
  | FunApp f args => (f, args) :: concat (map find_functions args)
  | Eq lhs rhs _ => find_functions lhs ++ find_functions rhs
  end%list.

(** [expr.subdomain.dimension_map]; an [AttributeError] (an expression
    that is no equation, or an equation without subdomain) gives [{}]. *)
Definition dimension_map_of (e : expr) : dimension_map_t :=
  match e with
  | Eq _ _ (Some m) => m
  | _ => ∅
  end.

(** [{d.spacing: 1, -d.spacing: -1}] *)
Definition spacing_rules (d : Dimension) : rules :=
  [ (Sym (spacing d), Num 1);
    (Mul (Num (-1)) (Sym (spacing d)), Num (-1)) ].

(** [f._rebuild(name='%si' % f.name, initvalue=initvalue)] *)
Definition rebuild_initvalue (f : Function expr) (init : list expr)
  : Function expr :=
  mkFunction (name f ++ "i") (dimensions f) (size_nodomain_left f)
             (is_Array f) (Some init).

Section lower.

(** [f.indexify(subs=dimension_map)] for the function reference [f(args)];
    it is defined in [devito.types], outside the source files. *)
Variable indexify : Function expr → list expr → dimension_map_t → expr.

(** A dictionary built by assigning [step k] to each key [k] in turn. *)
Fixpoint assign_all (step : Function expr * list expr → option (expr * expr))
    (keys : list (Function expr * list expr)) (mapper : rules) : option rules :=
  match keys with
  | [] => Some mapper
  | k :: keys' =>
      match step k with
      | Some (key, v) => assign_all step keys' (rules_set key v mapper)
      | None => None
      end
  end.

(** The body of the loop over [retrieve_indexed(expr)], for the access
    [f[indices]], with [lower] the recursive call [_lower_exprs(_, subs)].
    It gives the entry [mapper[i]]. *)
Definition lower_indexed (lower : expr → option expr)
    (dimension_map : dimension_map_t) (i : Function expr * list expr)
  : option (expr * expr) :=
  let '(f, i_indices) := i in
  (* Introduce shifting to align with the computational domain *)
  indices ← mapM (λ ao, a ← lower ao.1; Some (Add a (Num ao.2)))
                 (zip i_indices (size_nodomain_left f));
  (* Substitute spacing (spacing only used in own dimension) *)
  let indices :=
    (λ id, xreplace (spacing_rules id.2) id.1) <$> zip indices (dimensions f) in
  (* Apply substitutions, if necessary *)
  let indices :=
    if decide (dimension_map = ∅) then indices
    else xreplace (dimension_rules dimension_map) <$> indices in
  (* Handle Array *)
  f' ← match is_Array f, initvalue f with
       | true, Some init =>
           initvalue ← mapM lower init;
           Some (rebuild_initvalue f initvalue)
       | _, _ => Some f
       end;
  Some (Indexed f i_indices, Indexed f' indices).

(** The body of the loop of [_lower_exprs] for one expression. The
    recursion of the source is bounded by [fuel]; [None] means that the
    fuel ran out. *)
Fixpoint lower_expr (fuel : nat) (subs : rules) (e : expr) : option expr :=
  match fuel with
  | 0 => None
  | S fuel' =>
      let dimension_map := dimension_map_of e in
      (* Handle Functions (typical case) *)
      mapper ← assign_all
                 (λ fa, v ← lower_expr fuel' subs
                              (indexify fa.1 fa.2 dimension_map);
                        Some (FunApp fa.1 fa.2, v))
                 (find_functions e) [];
      (* Handle Indexeds (from index notation) *)
      mapper ← assign_all (lower_indexed (lower_expr fuel' subs) dimension_map)
                 (retrieve_indexed e) mapper;
      (* Add dimensions map to the mapper in case dimensions are used
         as an expression, i.e. Eq(u, x, subdomain=xleft) *)
      let mapper := rules_update mapper (dimension_rules dimension_map) in
      (* Add the user-supplied substitutions *)
      let mapper := rules_update mapper subs in
      (* Apply mapper to expression *)
      Some (uxreplace e mapper)
  end.

(** The argument of [lower_exprs]: one expression, or an iterable. *)
Inductive expressions_t : Type :=
| One (e : expr)
| Many (es : list expr).

(** [_lower_exprs(expressions, subs)]: an iterable gives the list of the
    lowered expressions, one expression gives one. *)
Definition _lower_exprs (fuel : nat) (expressions : expressions_t)
    (subs : rules) : option expressions_t :=
  match expressions with
  | One e => One <$> lower_expr fuel subs e
  | Many es => Many <$> mapM (lower_expr fuel subs) es
  end.

(** [lower_exprs(expressions, subs=None)] *)
Definition lower_exprs (fuel : nat) (expressions : expressions_t)
    (subs : option rules) : option expressions_t :=
  _lower_exprs fuel expressions (default [] subs).

End lower.

(** *** The lowering the specification describes *)

(** The lowered index of an access along a dimension [d] with left
    halo+padding size [L]: the index is shifted by [L], then the spacing
    of [d] and its negation are replaced by [1] and [-1]. *)
Definition lower_index (d : Dimension) (L : Z) (a : expr) : expr :=
  xreplace (spacing_rules d) (Add a (Num L)).

(** The subdomain remap of an index, if there is one. *)
Definition remap (dimension_map : dimension_map_t) (j : expr) : expr :=
  if decide (dimension_map = ∅) then j
  else xreplace (dimension_rules dimension_map) j.

(** The lowering of an expression without function references, written
    by recursion on the expression: every access, at any depth, has each
    index lowered, shifted and aligned ([lower_index]) and remapped; a
    function with an inline initializer is rebuilt with its initializer
    lowered; the dimensions of the subdomain are remapped. *)
Fixpoint lowered (dimension_map : dimension_map_t) (e : expr) : expr :=
  match e with
  | Num _ => e
  | Sym _ => default e (rules_get e (dimension_rules dimension_map))
  | Add a b => Add (lowered dimension_map a) (lowered dimension_map b)
  | Mul a b => Mul (lowered dimension_map a) (lowered dimension_map b)
  | Indexed f indices =>
      let f' :=
        match is_Array f, initvalue f with
        | true, Some init =>
            rebuild_initvalue f
              (map (λ i, lowered (dimension_map_of i) i) init)
        | _, _ => f
        end in
      Indexed f'
        ((fix each (indices : list expr) (left : list Z) (dims : list Dimension) :=
            match indices, left, dims with
            | a :: indices', L :: left', d :: dims' =>
                remap dimension_map
                  (lower_index d L (lowered (dimension_map_of a) a))
                  :: each indices' left' dims'
            | _, _, _ => []
            end) indices (size_nodomain_left f) (dimensions f))
  | FunApp _ _ => e
  | Eq lhs rhs subdomain =>
      Eq (lowered dimension_map lhs) (lowered dimension_map rhs) subdomain
  end.

(** The number of nodes of an expression, initializers included. *)
Fixpoint esize (e : expr) : nat :=
  match e with
  | Num _ | Sym _ => 1
  | Add a b | Mul a b => S (esize a + esize b)
  | Indexed f l | FunApp f l =>
      S (list_sum (map esize l)
         + match initvalue f with
           | Some init => list_sum (map esize init)
           | None => 0
           end)
  | Eq lhs rhs _ => S (esize lhs + esize rhs)
  end.

(** An expression in index notation: it holds no function reference,
    also in the initializers of its functions. *)
Fixpoint index_notation (e : expr) : bool :=
  match e with
  | Num _ | Sym _ => true
  | Add a b | Mul a b => index_notation a && index_notation b
  | Indexed f l =>
      forallb index_notation l
      && match initvalue f with
         | Some init => forallb index_notation init
         | None => true
         end
  | FunApp _ _ => false
  | Eq lhs rhs _ => index_notation lhs && index_notation rhs
  end.

(** The value of an expression, for the values [env] of the symbols and
    the contents [mem] of the functions at integer points. *)
Fixpoint eval (mem : string → list Z → Z) (env : string → Z) (e : expr) : Z :=
  match e with
  | Num z => z
  | Sym s => env s
  | Add a b => eval mem env a + eval mem env b
  | Mul a b => eval mem env a * eval mem env b
  | Indexed f l | FunApp f l => mem (name f) (map (eval mem env) l)
  | Eq lhs rhs _ => if (eval mem env lhs =? eval mem env rhs)%Z then 1 else 0
  end%Z.

(** The symbols of an expression, those in the indices of its accesses
    included. *)
Fixpoint occurs (s : string) (e : expr) : bool :=
  match e with
  | Num _ => false
  | Sym s' => String.eqb s s'
  | Add a b | Mul a b => occurs s a || occurs s b
  | Indexed _ l | FunApp _ l => existsb (occurs s) l
  | Eq lhs rhs _ => occurs s lhs || occurs s rhs
  end.

End Lowering.

(** The equation [u[t+1,x,y] = u[t,x-h_x,y] + u[t,x+h_x,y]] over the
    dimensions [(t, x, y)], with a halo of 2 on [x]. *)
Definition dim_t := Lowering.mkDimension "t" "dt".
Definition dim_x := Lowering.mkDimension "x" "h_x".
Definition dim_y := Lowering.mkDimension "y" "h_y".

Definition fun_u : Lowering.Function Lowering.expr :=
  Lowering.mkFunction "u" [dim_t; dim_x; dim_y] [0; 2; 0]%Z false None.

Definition stencil_eq : Lowering.expr :=
  let t := Lowering.Sym "t" in
  let x := Lowering.Sym "x" in
  let y := Lowering.Sym "y" in
  let h_x := Lowering.Sym "h_x" in
  let neg a := Lowering.Mul (Lowering.Num (-1)) a in
  Lowering.Eq
    (Lowering.Indexed fun_u [Lowering.Add t (Lowering.Num 1); x; y])
    (Lowering.Add
       (Lowering.Indexed fun_u [t; Lowering.Add x (neg h_x); y])
       (Lowering.Indexed fun_u [t; Lowering.Add x h_x; y]))
    None.

(** The equation after lowering: every [x]-index is shifted by 2 and the
    spacing is replaced. *)
Definition stencil_eq_lowered : Lowering.expr :=
  let t := Lowering.Sym "t" in
  let x := Lowering.Sym "x" in
  let y := Lowering.Sym "y" in
  let shift a (L : Z) := Lowering.Add a (Lowering.Num L) in
  Lowering.Eq
    (Lowering.Indexed fun_u
       [shift (Lowering.Add t (Lowering.Num 1)) 0; shift x 2; shift y 0]%Z)
    (Lowering.Add
       (Lowering.Indexed fun_u
          [shift t 0; shift (Lowering.Add x (Lowering.Num (-1))) 2; shift y 0])
       (Lowering.Indexed fun_u
          [shift t 0; shift (Lowering.Add x (Lowering.Num 1)) 2; shift y 0]))%Z
    None.

(** A stand-in for [indexify] to run the examples with: the arguments of
    the function reference become the indices. *)
Definition example_indexify (f : Lowering.Function Lowering.expr)
    (args : list Lowering.expr) (_ : Lowering.dimension_map_t) : Lowering.expr :=
  Lowering.Indexed f args.

(** ** [devito/ir/equations/algorithms.py]: [dimension_sort] *)

Module DimSort.

(** A dimension, as far as [dimension_sort] reads it. [index] is the
    dimension [d.index] when that is another object than [d] itself. *)
Inductive Dimension : Type :=
  mkDimension (name : string) (is_Derived indirect is_Stencil : bool)
              (parent index : option Dimension).

Definition name (d : Dimension) : string :=
  match d with mkDimension n _ _ _ _ _ => n end.
Definition is_Derived (d : Dimension) : bool :=
  match d with mkDimension _ b _ _ _ _ => b end.
Definition indirect (d : Dimension) : bool :=
  match d with mkDimension _ _ b _ _ _ => b end.
Definition is_Stencil (d : Dimension) : bool :=
  match d with mkDimension _ _ _ b _ _ => b end.
Definition parent (d : Dimension) : option Dimension :=
  match d with mkDimension _ _ _ _ p _ => p end.
(** [d.index] *)
Definition index (d : Dimension) : Dimension :=
  match d with mkDimension _ _ _ _ _ i => default d i end.

Lemma Dimension_eq_dec : ∀ x y : Dimension, {x = y} + {x ≠ y}.
Proof.
  fix IH 1. intros x y.
  decide equality;
    first [ apply Bool.bool_dec | apply String.string_dec
          | decide equality; apply IH ].
Defined.
#[global] Instance Dimension_eq_decision : EqDecision Dimension := Dimension_eq_dec.

(** An indexed access and its indices, by what [dimension_sort] asks of
    them. Of an index [i]: the dimension [i.d] when [i] is an
    [AffineIndexAccessFunction] (otherwise the attribute is missing), the
    accesses [retrieve_indexed(i)] nested in it, its dimensions
    [i.atoms(Dimension)], and [i.is_integer]. Of an access: the dimensions
    of its function and its indices. *)
Inductive Indexed : Type :=
  mkIndexed (function_dimensions : list Dimension) (indices : list Index)
with Index : Type :=
  mkIndex (d : option Dimension) (nested : list Indexed)
          (atoms : list Dimension) (is_integer : bool).

Definition function_dimensions (i : Indexed) : list Dimension :=
  match i with mkIndexed ds _ => ds end.
Definition indices (i : Indexed) : list Index :=
  match i with mkIndexed _ l => l end.
Definition is_integer (i : Index) : bool :=
  match i with mkIndex _ _ _ b => b end.

(** An equation, by what [dimension_sort] asks of it: its implicit
    dimensions and whether they are an [IgnoreDimSort],
    [retrieve_indexed(expr)], [retrieve_dimensions(expr, deep=True)] and
    [retrieve_indexed(expr, deep=True)]. The last three are sets or are
    put into sets; the lists give them in the order of iteration. *)
Record Equation : Type := mkEquation {
  implicit_dims : list Dimension;
  ignore_dim_sort : bool;
  indexeds : list Indexed;
  dimensions_deep : list Dimension;
  indexeds_deep : list Indexed
}.

(** Modelled from the spec: [devito.tools.filter_ordered] is not part of
    the source files. It drops the repeated items of a list and keeps the
    order of the first occurrences. *)
Fixpoint filter_ordered (l : list Dimension) : list Dimension :=
  match l with
  | [] => []
  | x :: l' => x :: filter (λ y, y ≠ x) (filter_ordered l')
  end.

(** Insertion into a list sorted by name. *)
Fixpoint insert_by_name (d : Dimension) (l : list Dimension) : list Dimension :=
  match l with
  | [] => [d]
  | x :: l' =>
      if String.leb (name d) (name x) then d :: l
      else x :: insert_by_name d l'
  end.

(** Modelled from the spec: [devito.tools.filter_sorted] is not part of
    the source files. It gives the items of a set sorted by name. *)
Definition filter_sorted (l : list Dimension) : list Dimension :=
  foldr insert_by_name [] (filter_ordered l).

(** [handle_indexed]: the relation of an access. An index that is an
    affine function of a dimension gives that dimension; otherwise the
    relations of the nested accesses, if they give any dimension; otherwise
    all the dimensions of the index, sorted. Stencil dimensions are
    dropped. *)
Fixpoint handle_indexed (indexed : Indexed) : list Dimension :=
  match indexed with
  | mkIndexed _ indices =>
      let relation :=
        concat
          (map (λ i,
             match i with
             | mkIndex (Some d) _ _ _ => [d]
             | mkIndex None nested atoms _ =>
                 match concat (map handle_indexed nested) with
                 | [] => filter_sorted atoms
                 | nested_relations => nested_relations
                 end
             end) indices) in
      filter (λ d, is_Stencil d = false) relation
  end.

(** The loop over a relation ([for d in i]): the index of a dimension is
    put before it when its name differs from the dimension's. *)
Definition with_indices (relation : list Dimension) : list Dimension :=
  concat (map (λ d, if String.eqb (name (index d)) (name d) then [d]
                    else [index d; d]) relation).

(** The set [extra]: the dimensions of the equation and the dimensions
    of the functions that are accessed through an integer index. *)
Definition extra_dims (expr : Equation) : list Dimension :=
  (dimensions_deep expr
   ++ concat (map (λ i,
        (fst <$> filter (λ di, is_integer di.2 = true)
                        (zip (function_dimensions i) (indices i))))
        (indexeds_deep expr)))%list.

(** The relations handed to [Ordering]: [(d.parent, d)] for the derived
    dimensions of [extra] that are not indirect, and the relations of the
    accesses and of the implicit dimensions with the indices put in. *)
Definition implicit_relations (expr : Equation) (extra : list Dimension)
  : list (list Dimension) :=
  let relations :=
    ((if ignore_dim_sort expr then [] else handle_indexed <$> indexeds expr)
     ++ [implicit_dims expr])%list in
  (omap (λ d, if is_Derived d && negb (indirect d)
              then p ← parent d; Some [p; d] else None) extra
   ++ ((λ i, filter_ordered (with_indices i)) <$> relations))%list.

(** *** [Ordering] *)

(** [a] stands before [b] in the relation [r]. *)
Fixpoint precedes (r : list Dimension) (a b : Dimension) : bool :=
  match r with
  | [] => false
  | x :: r' => (bool_decide (x = a) && bool_decide (b ∈ r')) || precedes r' a b
  end.

(** A dimension is blocked while another dimension that is still to be
    placed stands before it in a relation. *)
Definition blocked (relations : list (list Dimension))
    (remaining : list Dimension) (d : Dimension) : bool :=
  existsb (λ r, existsb (λ a, bool_decide (a ≠ d) && precedes r a d) remaining)
          relations.

(** The dimensions are placed one at a time: the first one, in the order
    of discovery, that is not blocked. *)
Fixpoint place (n : nat) (relations : list (list Dimension))
    (remaining : list Dimension) : result (list Dimension) :=
  match remaining, n with
  | [], _ => Ok []
  | _, 0 => Raise (ValueError "A cyclic dependency exists")
  | _, S n' =>
      match find (λ d, negb (blocked relations remaining d)) remaining with
      | None => Raise (ValueError "A cyclic dependency exists")
      | Some d =>
          match place n' relations (filter (λ x, x ≠ d) remaining) with
          | Ok order => Ok (d :: order)
          | Raise e => Raise e
          end
      end
  end.

(** Modelled from the spec: [devito.tools.Ordering] is not part of the
    source files. With [mode='partial'] it is a partial topological sort
    of the items under the relations that resolves ties by discovery
    order; a cycle fails loudly. *)
Definition Ordering (items : list Dimension) (relations : list (list Dimension))
  : result (list Dimension) :=
  place (length items) relations items.

(** [dimension_sort(expr)] *)
Definition dimension_sort (expr : Equation) : result (list Dimension) :=
  (* Enforce determinism *)
  let extra := filter_sorted (extra_dims expr) in
  Ordering extra (implicit_relations expr extra).

(** [a] stands before [b] in the order. *)
Definition before (order : list Dimension) (a b : Dimension) : Prop :=
  ∃ l1 l2 l3, order = (l1 ++ a :: l2 ++ b :: l3)%list.

(** The number of dimensions a dimension is derived from. *)
Fixpoint derivation_size (d : Dimension) : nat :=
  match d with
  | mkDimension _ _ _ _ p i =>
      S (match p with Some p' => derivation_size p' | None => 0 end
         + match i with Some i' => derivation_size i' | None => 0 end)
  end.

(** Two readings of one equation that differ only in the order in which
    the sets are enumerated: the set of the relations of the accesses and
    the set [extra]. *)
Definition same_sets (e1 e2 : Equation) : Prop :=
  implicit_dims e1 = implicit_dims e2
  ∧ ignore_dim_sort e1 = ignore_dim_sort e2
  ∧ (∀ r, r ∈ handle_indexed <$> indexeds e1
          ↔ r ∈ handle_indexed <$> indexeds e2)
  ∧ (∀ d, d ∈ extra_dims e1 ↔ d ∈ extra_dims e2).

(** Distinct dimensions have distinct names. *)
Definition distinct_names (l : list Dimension) : Prop :=
  ∀ a b, a ∈ l → b ∈ l → name a = name b → a = b.

End DimSort.

(** Equations to run [dimension_sort] on. [subdomain_eq] is
    [u[t+1, xi, y] = ...] for a time function [u(time, x, y)] accessed
    through the stepping dimension [t] and the subdimension [xi] of [x].
    [indirect_eq] is [f[ci] = ...] for a function [f(x)] accessed through
    an indirect conditional dimension [ci] whose parent is [x]. *)
Definition plain_dim (n : string) : DimSort.Dimension :=
  DimSort.mkDimension n false false false None None.
Definition dim_time := plain_dim "time".
Definition ds_x := plain_dim "x".
Definition ds_y := plain_dim "y".
Definition ds_t := DimSort.mkDimension "t" true false false (Some dim_time) None.
Definition ds_xi := DimSort.mkDimension "xi" true false false (Some ds_x) None.
Definition ds_ci := DimSort.mkDimension "ci" true true false (Some ds_x) None.

Definition affine (d : DimSort.Dimension) : DimSort.Index :=
  DimSort.mkIndex (Some d) [] [d] true.

Definition access_u : DimSort.Indexed :=
  DimSort.mkIndexed [dim_time; ds_x; ds_y] [affine ds_t; affine ds_xi; affine ds_y].
Definition subdomain_eq : DimSort.Equation :=
  DimSort.mkEquation [] false [access_u] [ds_t; ds_xi; ds_y] [access_u].

Definition access_f : DimSort.Indexed :=
  DimSort.mkIndexed [ds_x] [DimSort.mkIndex None [] [ds_ci] true].
Definition indirect_eq : DimSort.Equation :=
  DimSort.mkEquation [] false [access_f] [ds_ci] [access_f].

(** ** [devito/ir/equations/algorithms.py]: [concretize_subdims] *)

Module Concretize.

(** Dimensions, expressions and functions, as far as concretization reads
    them. A [SubDimension] holds its symbolic bounds and its thickness,
    a tuple of pairs of a thickness symbol (given by its name) and its
    value; [d.tkns] are the symbols and [d._thickness_map] is the
    dictionary of the pairs. A dimension is a symbol of the expressions it
    occurs in ([DimSym]). *)
Inductive Dimension : Type :=
| Dim (name : string)
| SubDimension (name : string) (parent : Dimension)
               (symbolic_min symbolic_max : expr)
               (thickness : list (string * option Z))
| ConditionalDimension (name : string) (parent : Dimension)
                       (condition : option expr)
| MultiSubDimension (name : string) (parent : Dimension)
                    (thickness : list string) (functions : option Function)
                    (implicit_dimension : option Dimension)
with expr : Type :=
| Num (z : Z)
| Sym (s : string)
| DimSym (d : Dimension)
| Op (op : string) (args : list expr)
| Indexed (f : Function) (indices : list expr)
with Function : Type :=
| mkFunction (name : string) (dimensions : list Dimension) (is_Array : bool).

(** An equation with its implicit dimensions. *)
Record Eq : Type := mkEq {
  lhs : expr;
  rhs : expr;
  implicit_dims : list Dimension
}.

Definition dimensions (f : Function) : list Dimension :=
  match f with mkFunction _ ds _ => ds end.
Definition is_Array (f : Function) : bool :=
  match f with mkFunction _ _ a => a end.
Definition dim_name (d : Dimension) : string :=
  match d with
  | Dim n | SubDimension n _ _ _ _ | ConditionalDimension n _ _
  | MultiSubDimension n _ _ _ _ => n
  end.

(** Structural equality, the [==] of dictionary keys. *)
Fixpoint Dimension_eqb (d1 d2 : Dimension) : bool :=
  match d1, d2 with
  | Dim n1, Dim n2 => String.eqb n1 n2
  | SubDimension n1 p1 a1 b1 t1, SubDimension n2 p2 a2 b2 t2 =>
      String.eqb n1 n2 && Dimension_eqb p1 p2 && expr_eqb a1 a2
      && expr_eqb b1 b2 && bool_decide (t1 = t2)
  | ConditionalDimension n1 p1 c1, ConditionalDimension n2 p2 c2 =>
      String.eqb n1 n2 && Dimension_eqb p1 p2 && option_eqb expr_eqb c1 c2
  | MultiSubDimension n1 p1 t1 f1 i1, MultiSubDimension n2 p2 t2 f2 i2 =>
      String.eqb n1 n2 && Dimension_eqb p1 p2 && bool_decide (t1 = t2)
      && option_eqb Function_eqb f1 f2 && option_eqb Dimension_eqb i1 i2
  | _, _ => false
  end
with expr_eqb (e1 e2 : expr) : bool :=
  match e1, e2 with
  | Num z1, Num z2 => (z1 =? z2)%Z
  | Sym s1, Sym s2 => String.eqb s1 s2
  | DimSym d1, DimSym d2 => Dimension_eqb d1 d2
  | Op o1 l1, Op o2 l2 => String.eqb o1 o2 && list_eqb expr_eqb l1 l2
  | Indexed f1 l1, Indexed f2 l2 => Function_eqb f1 f2 && list_eqb expr_eqb l1 l2
  | _, _ => false
  end
with Function_eqb (f1 f2 : Function) : bool :=
  match f1, f2 with
  | mkFunction n1 d1 a1, mkFunction n2 d2 a2 =>
      String.eqb n1 n2 && list_eqb Dimension_eqb d1 d2 && Bool.eqb a1 a2
  end.

(** Dictionaries keyed by dimensions and by functions. *)
Fixpoint dim_get {V} (k : Dimension) (m : list (Dimension * V)) : option V :=
  match m with
  | [] => None
  | (k', v) :: m' => if Dimension_eqb k k' then Some v else dim_get k m'
  end.

Fixpoint dim_set {V} (k : Dimension) (v : V) (m : list (Dimension * V))
  : list (Dimension * V) :=
  match m with
  | [] => [(k, v)]
  | (k', v') :: m' =>
      if Dimension_eqb k k' then (k, v) :: m' else (k', v') :: dim_set k v m'
  end.

Fixpoint fun_get {V} (k : Function) (m : list (Function * V)) : option V :=
  match m with
  | [] => None
  | (k', v) :: m' => if Function_eqb k k' then Some v else fun_get k m'
  end.

Fixpoint fun_set {V} (k : Function) (v : V) (m : list (Function * V))
  : list (Function * V) :=
  match m with
  | [] => [(k, v)]
  | (k', v') :: m' =>
      if Function_eqb k k' then (k, v) :: m' else (k', v') :: fun_set k v m'
  end.

(** A dictionary of symbol names, as [tkns_subs]. *)
Fixpoint sym_set (k v : string) (m : list (string * string)) : list (string * string) :=
  match m with
  | [] => [(k, v)]
  | (k', v') :: m' =>
      if String.eqb k k' then (k, v) :: m' else (k', v') :: sym_set k v m'
  end.

Fixpoint sym_get {V} (k : string) (m : list (string * V)) : option V :=
  match m with
  | [] => None
  | (k', v) :: m' => if String.eqb k k' then Some v else sym_get k m'
  end.

(** Modelled from the spec: the per-compilation naming registry
    ([sregistry]) is not part of the source files. [make_name(prefix)]
    mints a name that was not minted before: the prefix followed by the
    number of names minted from it so far. *)
Definition registry : Type := gmap string nat.

Definition make_name (prefix : string) (reg : registry) : string * registry :=
  let n := default 0%nat (reg !! prefix) in
  (prefix ++ pretty n, <[prefix := S n]> reg).

(** [[make_name(prefix=n) for n in names]] *)
Fixpoint make_names (names : list string) (reg : registry)
  : list string * registry :=
  match names with
  | [] => ([], reg)
  | n :: names' =>
      let '(n1, reg) := make_name n reg in
      let '(ns, reg) := make_names names' reg in
      (n1 :: ns, reg)
  end.

(** [e.subs(tkns_subs)]: the thickness symbols are renamed. *)
Fixpoint subs_symbols (m : list (string * string)) (e : expr) : expr :=
  match e with
  | Num _ | DimSym _ => e
  | Sym s => Sym (default s (sym_get s m))
  | Op o args => Op o (map (subs_symbols m) args)
  | Indexed f indices => Indexed f (map (subs_symbols m) indices)
  end.

(** [e.subs(mapper)] and, modelled from the spec, [uxreplace(e, mapper)],
    which is not part of the source files: the mapping is applied to the
    expression in one pass. Its keys are dimensions and, for arrays, the
    indexed bases of functions. *)
Fixpoint replace (mapper : list (Dimension * Dimension))
    (bases : list (Function * Function)) (e : expr) : expr :=
  match e with
  | Num _ | Sym _ => e
  | DimSym d => DimSym (default d (dim_get d mapper))
  | Op o args => Op o (map (replace mapper bases) args)
  | Indexed f indices =>
      Indexed (default f (fun_get f bases)) (map (replace mapper bases) indices)
  end.

(** [uxreplace] of an equation keeps its implicit dimensions. *)
Definition uxreplace (e : Eq) (mapper : list (Dimension * Dimension))
    (bases : list (Function * Function)) : Eq :=
  mkEq (replace mapper bases (lhs e)) (replace mapper bases (rhs e))
       (implicit_dims e).

(** The dimensions among the free symbols of an expression. *)
Fixpoint free_dimensions (e : expr) : list Dimension :=
  match e with
  | Num _ | Sym _ => []
  | DimSym d => [d]
  | Op _ args | Indexed _ args => concat (map free_dimensions args)
  end.

(** Modelled from the spec: [retrieve_functions] is not part of the
    source files. It finds the functions of an expression at any depth. *)
Fixpoint retrieve_functions (e : expr) : list Function :=
  match e with
  | Num _ | Sym _ | DimSym _ => []
  | Op _ args => concat (map retrieve_functions args)
  | Indexed f indices => f :: concat (map retrieve_functions indices)
  end.

(** The state the handlers share: the dictionaries [mapper] and
    [rebuilt] (with dimensions and with functions as keys) and the
    registry. *)
Record State : Type := mkState {
  mapper : list (Dimension * Dimension);
  rebuilt_dims : list (Dimension * Dimension);
  rebuilt_functions : list (Function * Function);
  sregistry : registry
}.

Definition set_mapper (d d' : Dimension) (st : State) : State :=
  mkState (dim_set d d' (mapper st)) (rebuilt_dims st) (rebuilt_functions st)
          (sregistry st).

(** [d in mapper] *)
Definition in_mapper (d : Dimension) (st : State) : bool :=
  match dim_get d (mapper st) with Some _ => true | None => false end.

(** The handler registered for [SubDimension]. *)
Definition concretize_SubDimension (d : Dimension) (st : State) : result State :=
  match d with
  | SubDimension n parent symbolic_min symbolic_max thickness =>
      if in_mapper d st then
        (* Already have a substitution for this dimension *)
        Ok st
      else
        let d_tkns := fst <$> thickness in
        let '(tkns, reg) := make_names d_tkns (sregistry st) in
        let tkns_subs :=
          fold_left (λ m kv, sym_set kv.1 kv.2 m) (zip d_tkns tkns) [] in
        let left := subs_symbols tkns_subs symbolic_min in
        let right := subs_symbols tkns_subs symbolic_max in
        match mapM (λ kv, match sym_get kv.1 thickness with
                          | Some value => Some (kv.2, value)
                          | None => None
                          end) tkns_subs with
        | None => Raise (KeyError "_thickness_map")
        | Some thickness' =>
            Ok (set_mapper d (SubDimension n parent left right thickness')
                  (mkState (mapper st) (rebuilt_dims st) (rebuilt_functions st)
                           reg))
        end
  | _ => Ok st
  end.

(** Modelled from the spec: [MultiSubDimension._symbolic_thickness(name)]
    is not part of the source files. It gives the pair of thickness
    symbols of a dimension, named after it. *)
Definition _symbolic_thickness (name : string) : list string :=
  [name ++ "_ltkn"; name ++ "_rtkn"].

(** [idim0._rebuild(name=iname)] *)
Definition rename (d : Dimension) (n : string) : Dimension :=
  match d with
  | Dim _ => Dim n
  | SubDimension _ p a b t => SubDimension n p a b t
  | ConditionalDimension _ p c => ConditionalDimension n p c
  | MultiSubDimension _ p t f i => MultiSubDimension n p t f i
  end.

(** The handler registered for [MultiSubDimension]. *)
Definition concretize_MultiSubDimension (d : Dimension) (st : State)
  : result State :=
  match d with
  | MultiSubDimension n parent thickness functions implicit_dimension =>
      if in_mapper d st then
        (* Already have a substitution for this dimension *)
        Ok st
      else
        let tkns0 := _symbolic_thickness n in
        let '(tkns1, reg) := make_names tkns0 (sregistry st) in
        let st := mkState (mapper st) (rebuilt_dims st) (rebuilt_functions st) reg in
        match implicit_dimension with
        | None =>
            Ok (set_mapper d (MultiSubDimension n parent tkns1 functions None) st)
        | Some idim0 =>
            match functions with
            | None => Raise (AttributeError "dimensions")
            | Some d_functions =>
                match dim_get idim0 (rebuilt_dims st),
                      fun_get d_functions (rebuilt_functions st) with
                | Some idim1, Some functions' =>
                    (* a preexisting substitution *)
                    Ok (set_mapper d
                          (MultiSubDimension n parent tkns1 (Some functions')
                                             (Some idim1)) st)
                | _, _ =>
                    let '(iname, reg) := make_name (dim_name idim0) (sregistry st) in
                    let idim1 := rename idim0 iname in
                    let fdims := idim1 :: tail (dimensions d_functions) in
                    let frebuilt :=
                      match d_functions with
                      | mkFunction fname _ a => mkFunction fname fdims a
                      end in
                    let st :=
                      mkState (mapper st)
                              (dim_set idim0 idim1 (rebuilt_dims st))
                              (fun_set d_functions frebuilt (rebuilt_functions st))
                              reg in
                    Ok (set_mapper d
                          (MultiSubDimension n parent tkns1 (Some frebuilt)
                                             (Some idim1)) st)
                end
            end
        end
  | _ => Ok st
  end.

(** [_concretize_subdims] on a dimension, by its kind, and on the free
    symbols of an expression ([for v in e.free_symbols]), visited in the
    order of the expression. A symbol that is no subdimension, conditional
    dimension or multi-subdimension takes the default, which does
    nothing. *)
Fixpoint concretize_dimension (d : Dimension) (st : State) : result State :=
  match d with
  | Dim _ => Ok st
  | SubDimension _ _ _ _ _ => concretize_SubDimension d st
  | MultiSubDimension _ _ _ _ _ => concretize_MultiSubDimension d st
  | ConditionalDimension n parent condition =>
      if in_mapper d st then
        (* Already have a substitution for this dimension *)
        Ok st
      else
        match concretize_dimension parent st with
        | Raise e => Raise e
        | Ok st =>
            (* Parent may be a subdimension *)
            let parent' := dim_get parent (mapper st) in
            (* Condition may contain subdimensions *)
            match condition with
            | None =>
                match parent' with
                | Some p =>
                    Ok (set_mapper d (ConditionalDimension n p condition) st)
                | None => Ok st
                end
            | Some c =>
                match concretize_symbols c st with
                | Raise e => Raise e
                | Ok st =>
                    let condition' :=
                      if existsb (λ v, in_mapper v st) (free_dimensions c)
                      then Some (replace (mapper st) [] c) else None in
                    match parent', condition' with
                    | None, None => Ok st
                    | _, _ =>
                        (* Rebuild if parent or condition need replacing *)
                        Ok (set_mapper d
                              (ConditionalDimension n (default parent parent')
                                 (Some (default c condition'))) st)
                    end
                end
            end
        end
  end
with concretize_symbols (e : expr) (st : State) : result State :=
  match e with
  | Num _ | Sym _ => Ok st
  | DimSym d => concretize_dimension d st
  | Op _ args | Indexed _ args =>
      fold_left (λ r a, match r with
                        | Ok st => concretize_symbols a st
                        | Raise e => Raise e
                        end) args (Ok st)
  end.

(** The handler registered for [Eq]: the free symbols, then the implicit
    dimensions. *)
Definition concretize_Eq (e : Eq) (st : State) : result State :=
  match concretize_symbols (lhs e) st with
  | Raise err => Raise err
  | Ok st =>
      match concretize_symbols (rhs e) st with
      | Raise err => Raise err
      | Ok st =>
          (* Subdimensions can be hiding in implicit dims *)
          fold_left (λ r d, match r with
                            | Ok st => concretize_dimension d st
                            | Raise err => Raise err
                            end) (implicit_dims e) (Ok st)
      end
  end.

(** The handler registered for [list] and [tuple]. *)
Definition _concretize_subdims (exprs : list Eq) (st : State) : result State :=
  fold_left (λ r e, match r with
                    | Ok st => concretize_Eq e st
                    | Raise err => Raise err
                    end) exprs (Ok st).

(** The arrays whose dimensions are remapped, with their rebuilds:
    [mapper[f.indexed] = f._rebuild(dimensions=dimensions, ...).indexed]. *)
Definition array_bases (mapper : list (Dimension * Dimension))
    (exprs : list Eq) : list (Function * Function) :=
  let functions :=
    concat (map (λ e, retrieve_functions (lhs e) ++ retrieve_functions (rhs e))%list
                exprs) in
  fold_left
    (λ bases f,
       if is_Array f then
         let dims := (λ d, default d (dim_get d mapper)) <$> dimensions f in
         if list_eqb Dimension_eqb dims (dimensions f) then bases
         else match f with
              | mkFunction fname _ a => fun_set f (mkFunction fname dims a) bases
              end
       else bases)
    functions [].

(** [concretize_subdims(exprs, sregistry=sregistry)]: the new list, and the
    registry as the call leaves it. *)
Definition concretize_subdims (exprs : list Eq) (sregistry : registry)
  : result (list Eq * registry) :=
  match _concretize_subdims exprs (mkState [] [] [] sregistry) with
  | Raise err => Raise err
  | Ok st =>
      match mapper st with
      | [] => Ok (exprs, Concretize.sregistry st)
      | mapper =>
          let bases := array_bases mapper exprs in
          Ok ((λ e, uxreplace e mapper bases) <$> exprs, Concretize.sregistry st)
      end
  end.

(** Dimensions and expressions that hold no [SubDimension] and no
    [MultiSubDimension], at any depth. *)
Fixpoint no_subdims (d : Dimension) : bool :=
  match d with
  | Dim _ => true
  | SubDimension _ _ _ _ _ | MultiSubDimension _ _ _ _ _ => false
  | ConditionalDimension _ parent condition =>
      no_subdims parent
      && match condition with
         | Some c => no_subdims_expr c
         | None => true
         end
  end
with no_subdims_expr (e : expr) : bool :=
  match e with
  | Num _ | Sym _ => true
  | DimSym d => no_subdims d
  | Op _ args | Indexed _ args => forallb no_subdims_expr args
  end.

Definition no_subdims_Eq (e : Eq) : bool :=
  no_subdims_expr (lhs e) && no_subdims_expr (rhs e)
  && forallb no_subdims (implicit_dims e).

End Concretize.

(** The equation [u[xi] = u[xi] + 1] on the subdimension [xi] of [x], as
    the user writes it and as one and two runs of [concretize_subdims]
    leave it. *)
Definition subdim_xi (ltkn rtkn : string) : Concretize.Dimension :=
  Concretize.SubDimension "xi" (Concretize.Dim "x")
    (Concretize.Op "Add" [Concretize.Sym "x_m"; Concretize.Sym ltkn])
    (Concretize.Op "Add"
       [Concretize.Sym "x_M";
        Concretize.Op "Mul" [Concretize.Num (-1); Concretize.Sym rtkn]])
    [(ltkn, Some 2%Z); (rtkn, Some 2%Z)].

Definition subdim_eq (ltkn rtkn : string) : Concretize.Eq :=
  let u := Concretize.mkFunction "u" [Concretize.Dim "x"] false in
  let xi := Concretize.DimSym (subdim_xi ltkn rtkn) in
  Concretize.mkEq (Concretize.Indexed u [xi])
    (Concretize.Op "Add" [Concretize.Indexed u [xi]; Concretize.Num 1]) [].

(** [u[x] = u[x] + 1], without subdimension. *)
Definition plain_eq : Concretize.Eq :=
  let u := Concretize.mkFunction "u" [Concretize.Dim "x"] false in
  let x := Concretize.DimSym (Concretize.Dim "x") in
  Concretize.mkEq (Concretize.Indexed u [x])
    (Concretize.Op "Add" [Concretize.Indexed u [x]; Concretize.Num 1]) [].

(** * Properties *)

(** ** Dictionaries *)

Lemma dict_get_del_ne k k' d :
  String.eqb k k' = false → dict_get k (dict_del k' d) = dict_get k d.
Proof.
  intros Hne. induction d as [|[k0 v] d IH]; simpl; [done|].
  destruct (String.eqb k' k0) eqn:E1; simpl.
  - apply String.eqb_eq in E1 as <-. by rewrite Hne.
  - by rewrite IH.
Qed.

Lemma dict_get_del_eq k d : dict_get k (dict_del k d) = None.
Proof.
  induction d as [|[k0 v] d IH]; simpl; [done|].
  destruct (String.eqb k k0) eqn:E; simpl; [done|]. by rewrite E.
Qed.

Lemma dict_del_absent k d : dict_get k d = None → dict_del k d = d.
Proof.
  induction d as [|[k0 v] d IH]; simpl; [done|].
  destruct (String.eqb k k0); [done|]. intros H. by rewrite IH.
Qed.

Lemma dict_keys_del k d :
  dict_keys (dict_del k d) = filter (λ k', k' ≠ k) (dict_keys d).
Proof.
  induction d as [|[k0 v] d IH]; simpl; [done|].
  rewrite filter_cons. simpl.
  destruct (String.eqb k k0) eqn:E.
  - apply String.eqb_eq in E as <-. rewrite decide_False by naive_solver. done.
  - apply String.eqb_neq in E. rewrite decide_True by naive_solver.
    simpl. by rewrite IH.
Qed.

(** Popping a list of keys leaves the keys outside the list, in order. *)
Lemma dict_keys_del_all ks d :
  dict_keys (foldl (λ d k, dict_del k d) d ks)
  = filter (λ k, k ∉ ks) (dict_keys d).
Proof.
  revert d. induction ks as [|k ks IH]; intros d; simpl.
  - induction (dict_keys d) as [|k l IHl]; [done|].
    rewrite filter_cons, decide_True by set_solver. by rewrite <- IHl.
  - rewrite IH, dict_keys_del.
    rewrite list_filter_filter. apply list_filter_iff. set_solver.
Qed.

Lemma dict_get_Some_keys k v d : dict_get k d = Some v → k ∈ dict_keys d.
Proof.
  induction d as [|[k0 v0] d IH]; simpl; [done|].
  destruct (String.eqb k k0) eqn:E.
  - apply String.eqb_eq in E as ->. set_solver.
  - set_solver.
Qed.

Lemma dict_get_None_keys k d : dict_get k d = None ↔ k ∉ dict_keys d.
Proof.
  induction d as [|[k0 v0] d IH]; simpl; [set_solver|].
  destruct (String.eqb k k0) eqn:E.
  - apply String.eqb_eq in E as ->. set_solver.
  - apply String.eqb_neq in E. set_solver.
Qed.

Lemma dict_get_set k k' v d :
  dict_get k (dict_set k' v d)
  = if String.eqb k k' then Some v else dict_get k d.
Proof.
  induction d as [|[k0 v0] d IH]; simpl.
  - by destruct (String.eqb k k').
  - destruct (String.eqb k' k0) eqn:E1; simpl.
    + apply String.eqb_eq in E1 as <-. by destruct (String.eqb k k').
    + destruct (String.eqb k k0) eqn:E2; [|done].
      apply String.eqb_eq in E2 as <-.
      by rewrite String.eqb_sym, E1.
Qed.

Lemma dict_get_setdefault k k' v d :
  dict_get k (dict_setdefault k' v d)
  = match dict_get k d with
    | Some x => Some x
    | None => if String.eqb k k' then Some v else None
    end.
Proof.
  unfold dict_setdefault. destruct (dict_get k' d) as [x|] eqn:E.
  - destruct (dict_get k d) eqn:E2; [done|].
    destruct (String.eqb k k') eqn:E3; [|done].
    apply String.eqb_eq in E3 as ->. congruence.
  - rewrite dict_get_set. destruct (String.eqb k k') eqn:E3.
    + apply String.eqb_eq in E3 as ->. by rewrite E.
    + by destruct (dict_get k d).
Qed.

Lemma dict_keys_is_Some k d : k ∈ dict_keys d ↔ is_Some (dict_get k d).
Proof.
  destruct (dict_get k d) as [v|] eqn:E.
  - split; [by eauto|]. intros _. by eapply dict_get_Some_keys.
  - apply dict_get_None_keys in E. split; [done|]. by intros [? [=]].
Qed.

(** ** Option normalization *)

Module Import NormalizeFacts.
Import DeviceOperatorMixin.

Lemma normalize_gpu_fit_state kwargs oo v oo' :
  _normalize_gpu_fit kwargs oo = Ok (v, oo') → oo' = dict_del "gpu-fit" oo.
Proof.
  unfold _normalize_gpu_fit, pop.
  destruct (dict_get "gpu-fit" oo) as [g|] eqn:E.
  - destruct (gpu_fit_items (as_tuple g)); [|done]. by intros [= _ <-].
  - rewrite (dict_del_absent _ _ E).
    destruct (_ || _); by intros [= _ <-].
Qed.

Lemma resolve_gpu_fit_del k kwargs oo :
  String.eqb "gpu-fit" k = false →
  resolve_gpu_fit kwargs (dict_del k oo) = resolve_gpu_fit kwargs oo.
Proof.
  intros Hk. unfold resolve_gpu_fit, _normalize_gpu_fit, pop.
  rewrite (dict_get_del_ne _ _ _ Hk).
  destruct (dict_get "gpu-fit" oo) as [g|]; [|by destruct (_ || _)].
  by destruct (gpu_fit_items (as_tuple g)).
Qed.

Lemma normalize_gpu_fit_resolve kwargs oo :
  _normalize_gpu_fit kwargs oo
  = match resolve_gpu_fit kwargs oo with
    | Ok v => Ok (v, dict_del "gpu-fit" oo)
    | Raise e => Raise e
    end.
Proof.
  unfold resolve_gpu_fit.
  destruct (_normalize_gpu_fit kwargs oo) as [[v oo']|e] eqn:E; [|done].
  by rewrite (normalize_gpu_fit_state _ _ _ _ E).
Qed.

(** [_normalize_kwargs] in closed form: the only exceptions are the
    [KeyError] of a missing [mpi], what resolving [gpu-fit] raises, and
    [InvalidOperator] for the keys that were not popped. *)
Lemma normalize_kwargs_unfold cls kwargs :
  _normalize_kwargs cls kwargs =
  let oo := options kwargs in
  match dict_get "mpi" oo with
  | None => Raise (KeyError "mpi")
  | Some mpi =>
      match resolve_gpu_fit kwargs oo with
      | Raise e => Raise e
      | Ok gpu_fit =>
          match unsupported oo with
          | [] => Ok (mkKwargs (normalized cls oo mpi gpu_fit) (mode kwargs))
          | ks =>
              Raise (InvalidOperator
                       ("Unsupported optimization options: ["
                          ++ join ", " ks ++ "]"))
          end
      end
  end.
Proof.
  destruct kwargs as [oo md]. unfold _normalize_kwargs. simpl options.
  cbv beta zeta.
  unfold bind at 1. unfold pop at 1.
  destruct (dict_get "mpi" oo) as [mpi|] eqn:Empi; [|done].
  cbv [bind pop_default]. cbv beta iota.
  rewrite normalize_gpu_fit_resolve.
  rewrite !resolve_gpu_fit_del by reflexivity.
  destruct (resolve_gpu_fit _ oo) as [g|e]; [|done].
  cbv [get_state]. cbv beta iota.
  rewrite !dict_get_del_ne by reflexivity.
  match goal with
  | |- context [match ?d with [] => _ | _ :: _ => _ end] =>
      assert (dict_keys d = unsupported oo) as Hks
  end.
  { unfold unsupported. rewrite <- dict_keys_del_all. reflexivity. }
  match type of Hks with dict_keys ?d = _ => destruct d as [|kv d'] eqn:Ed end.
  - rewrite <- Hks. reflexivity.
  - rewrite <- Hks. reflexivity.
Qed.

End NormalizeFacts.

Section device_normalization.
Import DeviceOperatorMixin.
Context (cls : OperatorClass).

Lemma unsupported_nil oo :
  unsupported oo = [] ↔ ∀ k, k ∈ dict_keys oo → k ∈ recognized.
Proof.
  unfold unsupported. split.
  - intros Hnil k Hk. destruct (decide (k ∈ recognized)) as [|Hn]; [done|].
    assert (k ∈ filter (λ k, k ∉ recognized) (dict_keys oo)) as Hin
        by (by apply list_elem_of_filter).
    rewrite Hnil in Hin. by apply not_elem_of_nil in Hin.
  - intros Hall. induction (dict_keys oo) as [|k l IH]; [done|].
    rewrite filter_cons, decide_False by (intros Hn; apply Hn, Hall; set_solver).
    apply IH. intros k' Hk'. apply Hall. set_solver.
Qed.

Lemma resolve_gpu_fit_ext k1 k2 oo1 oo2 :
  mode k1 = mode k2 →
  dict_get "gpu-fit" oo1 = dict_get "gpu-fit" oo2 →
  resolve_gpu_fit k1 oo1 = resolve_gpu_fit k2 oo2.
Proof.
  intros Hm Hg. unfold resolve_gpu_fit, _normalize_gpu_fit, pop.
  rewrite Hg, Hm. destruct (dict_get "gpu-fit" oo2) as [g|].
  - by destruct (gpu_fit_items (as_tuple g)).
  - by destruct (_ || _).
Qed.

Lemma normalize_kwargs_ok kwargs mpi g :
  dict_get "mpi" (options kwargs) = Some mpi →
  resolve_gpu_fit kwargs (options kwargs) = Ok g →
  (∀ k, k ∈ dict_keys (options kwargs) → k ∈ recognized) →
  _normalize_kwargs cls kwargs
  = Ok (mkKwargs (normalized cls (options kwargs) mpi g) (mode kwargs)).
Proof.
  intros Hmpi Hg Hkeys.
  rewrite normalize_kwargs_unfold. cbv zeta. rewrite Hmpi, Hg.
  apply unsupported_nil in Hkeys. by rewrite Hkeys.
Qed.

#[local] Abbreviation oo_omp := DeviceOmpOperatorMixin.super_options.
#[local] Abbreviation oo_acc := DeviceAccOperatorMixin.super_options.

Lemma device_keys_recognized (oo : dict) k :
  (∀ k, k ∈ dict_keys oo → k ∈ recognized ∨ k = "openmp") →
  k ∈ dict_keys (oo_omp oo) ∨ k ∈ dict_keys (oo_acc oo) → k ∈ recognized.
Proof.
  intros Hkeys.
  unfold DeviceOmpOperatorMixin.super_options, DeviceAccOperatorMixin.super_options.
  rewrite !dict_keys_del.
  rewrite !list_elem_of_filter, !dict_keys_is_Some, dict_get_setdefault.
  intros [[Hne Hk]|[Hne Hk]].
  - destruct (dict_get k oo) as [x|] eqn:E.
    + destruct (Hkeys k) as [|]; [by apply dict_keys_is_Some; eauto|done..].
    + destruct (String.eqb k "linearize") eqn:E2; [|by destruct Hk].
      apply String.eqb_eq in E2 as ->. unfold recognized. set_solver.
  - destruct (Hkeys k) as [|]; [by apply dict_keys_is_Some|done..].
Qed.

Lemma omp_normalize_kwargs_ok kwargs :
  device_normalizable kwargs →
  ∃ mpi g,
    dict_get "mpi" (options kwargs) = Some mpi
    ∧ resolve_gpu_fit kwargs (options kwargs) = Ok g
    ∧ DeviceOmpOperatorMixin._normalize_kwargs cls kwargs
      = Ok (mkKwargs (dict_set "openmp" (VBool true)
                               (normalized cls (oo_omp (options kwargs)) mpi g))
                     (mode kwargs)).
Proof.
  intros ([mpi Hmpi] & [g Hg] & Hkeys). exists mpi, g.
  split; [done|]. split; [done|].
  unfold DeviceOmpOperatorMixin._normalize_kwargs. cbv zeta.
  rewrite (normalize_kwargs_ok _ mpi g); simpl; [done|..].
  - unfold DeviceOmpOperatorMixin.super_options. rewrite dict_get_del_ne, dict_get_setdefault by done.
    by rewrite Hmpi.
  - rewrite <- Hg. apply resolve_gpu_fit_ext; [done|].
    unfold DeviceOmpOperatorMixin.super_options. rewrite dict_get_del_ne, dict_get_setdefault by done.
    by destruct (dict_get "gpu-fit" (options kwargs)).
  - intros k Hk. eapply device_keys_recognized; eauto.
Qed.

Lemma acc_normalize_kwargs_ok kwargs :
  device_normalizable kwargs →
  ∃ mpi g,
    dict_get "mpi" (options kwargs) = Some mpi
    ∧ resolve_gpu_fit kwargs (options kwargs) = Ok g
    ∧ DeviceAccOperatorMixin._normalize_kwargs cls kwargs
      = Ok (mkKwargs (dict_set "openacc" (VBool true)
                               (normalized cls (oo_acc (options kwargs)) mpi g))
                     (mode kwargs)).
Proof.
  intros ([mpi Hmpi] & [g Hg] & Hkeys). exists mpi, g.
  split; [done|]. split; [done|].
  unfold DeviceAccOperatorMixin._normalize_kwargs. cbv zeta.
  rewrite (normalize_kwargs_ok _ mpi g); simpl; [done|..].
  - unfold DeviceAccOperatorMixin.super_options. by rewrite dict_get_del_ne.
  - rewrite <- Hg. apply resolve_gpu_fit_ext; [done|].
    unfold DeviceAccOperatorMixin.super_options. by rewrite dict_get_del_ne.
  - intros k Hk. eapply device_keys_recognized; eauto.
Qed.

End device_normalization.

(** ** Claims on option normalization *)

Section normalization_claims.
Import DeviceOperatorMixin.
Context (cls : OperatorClass).

(** C6 (as amended). The options [{"totally-bogus-key": 1}] make
    [_normalize_kwargs] raise [KeyError('mpi')]: [mpi] is popped first and
    has no default. When the [mpi] entry is there and [gpu-fit] resolves,
    options with a key outside the recognized vocabulary make
    [_normalize_kwargs] raise [InvalidOperator]; its message lists exactly
    the keys of the options that are not recognized, in the order of the
    dictionary. Normalization is a function of the options alone: no pass
    has run when it raises. *)
Theorem normalize_kwargs_unsupported kwargs :
  is_Some (dict_get "mpi" (options kwargs)) →
  (∃ g, resolve_gpu_fit kwargs (options kwargs) = Ok g) →
  (∃ k, k ∈ dict_keys (options kwargs) ∧ k ∉ recognized) →
  _normalize_kwargs cls kwargs
  = Raise (InvalidOperator
             ("Unsupported optimization options: ["
                ++ join ", " (unsupported (options kwargs)) ++ "]"))
  ∧ ∀ k, k ∈ unsupported (options kwargs)
         ↔ k ∈ dict_keys (options kwargs) ∧ k ∉ recognized.
Proof.
  intros [mpi Hmpi] [g Hg] (k & Hk & Hn). split.
  - rewrite normalize_kwargs_unfold. cbv zeta. rewrite Hmpi, Hg.
    destruct (unsupported (options kwargs)) as [|k' ks] eqn:E; [|done].
    exfalso. apply Hn. by apply (proj1 (unsupported_nil _) E).
  - intros k'. unfold unsupported. rewrite list_elem_of_filter. tauto.
Qed.

(** C7. Without a [gpu-fit] entry, [_normalize_gpu_fit] returns [(None,)]
    when the mode names [tasking] or [streaming] and the tuple of
    [GPU_FIT], [('all-fallback',)], otherwise, and leaves the options as
    they are; this is the [gpu-fit] entry of the normalized options. *)
Theorem normalize_gpu_fit_default kwargs :
  normalizable kwargs →
  dict_get "gpu-fit" (options kwargs) = None →
  let fit :=
    if py_in "tasking" (mode kwargs) || py_in "streaming" (mode kwargs)
    then [VNone] else [VStr "all-fallback"] in
  _normalize_gpu_fit kwargs (options kwargs) = Ok (VTuple fit, options kwargs)
  ∧ ∃ kwargs',
      _normalize_kwargs cls kwargs = Ok kwargs'
      ∧ getitem "gpu-fit" (options kwargs') = Ok (VTuple fit).
Proof.
  intros ([mpi Hmpi] & [g Hg] & Hkeys) Hfit fit.
  assert (_normalize_gpu_fit kwargs (options kwargs)
          = Ok (VTuple fit, options kwargs)) as Hn.
  { unfold _normalize_gpu_fit, pop. rewrite Hfit. subst fit.
    by destruct (_ || _). }
  split; [done|]. eexists. split.
  - by apply normalize_kwargs_ok.
  - unfold resolve_gpu_fit in Hg. rewrite Hn in Hg. by injection Hg as <-.
Qed.

End normalization_claims.

Lemma normalize_kwargs_unsupported_witness :
  DeviceOperatorMixin._normalize_kwargs example_cls
    (mkKwargs [("mpi", VBool false); ("totally-bogus-key", VInt 1)]
              (ModeName "advanced"))
  = Raise (InvalidOperator
             "Unsupported optimization options: [totally-bogus-key]").
Proof.
  refine (proj1 (normalize_kwargs_unsupported example_cls
                   (mkKwargs [("mpi", VBool false); ("totally-bogus-key", VInt 1)]
                             (ModeName "advanced")) _ _ _)).
  - eexists. reflexivity.
  - eexists. reflexivity.
  - exists "totally-bogus-key". split.
    + vm_compute. apply list_elem_of_further, list_elem_of_here.
    + apply (bool_decide_unpack _). vm_compute. exact I.
Defined.

(** C6, the claim as stated fails: the options [{"totally-bogus-key": 1}]
    hold an unrecognized key, and [_normalize_kwargs] raises
    [KeyError('mpi')], not [InvalidOperator]. *)
Lemma normalize_kwargs_bogus_key_alone :
  let r := DeviceOperatorMixin._normalize_kwargs example_cls
             (mkKwargs [("totally-bogus-key", VInt 1)] (ModeName "advanced")) in
  r = Raise (KeyError "mpi") ∧ ¬ ∃ msg, r = Raise (InvalidOperator msg).
Proof.
  split; [reflexivity|]. intros [msg H]. vm_compute in H. discriminate H.
Qed.

Lemma normalize_gpu_fit_default_witness :
  DeviceOperatorMixin._normalize_gpu_fit
    (mkKwargs [("mpi", VBool false)] (ModePasses ["buffering"; "tasking"]))
    [("mpi", VBool false)]
  = Ok (VTuple [VNone], [("mpi", VBool false)])
  ∧ ∃ kwargs',
      DeviceOperatorMixin._normalize_kwargs example_cls
        (mkKwargs [("mpi", VBool false)] (ModePasses ["buffering"; "tasking"]))
      = Ok kwargs'
      ∧ getitem "gpu-fit" (options kwargs') = Ok (VTuple [VNone]).
Proof.
  refine (normalize_gpu_fit_default example_cls
            (mkKwargs [("mpi", VBool false)] (ModePasses ["buffering"; "tasking"]))
            _ _).
  - split; [eexists; reflexivity|]. split; [eexists; reflexivity|].
    intros k Hk. vm_compute in Hk. apply list_elem_of_singleton in Hk as ->.
    apply (bool_decide_unpack _). vm_compute. exact I.
  - reflexivity.
Defined.

Section backend_claims.
Import DeviceOperatorMixin.
Context (cls : OperatorClass).

(** C10. When the user gives no [linearize] entry, the options normalized
    by the OpenMP mixin hold [linearize = True] and those normalized by the
    OpenACC mixin hold [linearize = False]. *)
Theorem linearize_default_by_backend kwargs :
  device_normalizable kwargs →
  dict_get "linearize" (options kwargs) = None →
  ∃ kw_omp kw_acc,
    DeviceOmpOperatorMixin._normalize_kwargs cls kwargs = Ok kw_omp
    ∧ DeviceAccOperatorMixin._normalize_kwargs cls kwargs = Ok kw_acc
    ∧ getitem "linearize" (options kw_omp) = Ok (VBool true)
    ∧ getitem "linearize" (options kw_acc) = Ok (VBool false).
Proof.
  intros Hok Hlin.
  destruct (omp_normalize_kwargs_ok cls kwargs Hok) as (mpi & g & _ & _ & Homp).
  destruct (acc_normalize_kwargs_ok cls kwargs Hok) as (mpi' & g' & _ & _ & Hacc).
  eexists _, _. split; [exact Homp|]. split; [exact Hacc|].
  unfold getitem. cbn [options dict_set dict_get normalized String.eqb Ascii.eqb Bool.eqb].
  unfold DeviceOmpOperatorMixin.super_options, DeviceAccOperatorMixin.super_options.
  rewrite !dict_get_del_ne, dict_get_setdefault, Hlin by done. done.
Qed.

(** C8. A non-empty [gpu-create] is rejected by the OpenMP mixin and kept
    by the OpenACC mixin: after normalization [_check_kwargs] of the OpenMP
    mixin raises [InvalidOperator], while the OpenACC mixin, which defines
    no check of its own, normalizes the options and stores the list. *)
Theorem gpu_create_by_backend kwargs v :
  device_normalizable kwargs →
  dict_get "gpu-create" (options kwargs) = Some v →
  as_tuple v ≠ [] →
  (∃ kw_omp,
      DeviceOmpOperatorMixin._normalize_kwargs cls kwargs = Ok kw_omp
      ∧ DeviceOmpOperatorMixin._check_kwargs kw_omp
        = Raise (InvalidOperator
                   "Unsupported gpu-create option for omp operators"))
  ∧ (∃ kw_acc,
      DeviceAccOperatorMixin._normalize_kwargs cls kwargs = Ok kw_acc
      ∧ getitem "gpu-create" (options kw_acc) = Ok (VTuple (as_tuple v))).
Proof.
  intros Hok Hv Hne.
  destruct (omp_normalize_kwargs_ok cls kwargs Hok) as (mpi & g & _ & _ & Homp).
  destruct (acc_normalize_kwargs_ok cls kwargs Hok) as (mpi' & g' & _ & _ & Hacc).
  split; eexists; (split; [eassumption|]).
  - unfold DeviceOmpOperatorMixin._check_kwargs, getitem.
    cbn [options dict_set dict_get normalized String.eqb Ascii.eqb Bool.eqb].
    unfold DeviceOmpOperatorMixin.super_options.
    rewrite !dict_get_del_ne, dict_get_setdefault, Hv by done.
    simpl. by destruct (as_tuple v).
  - unfold getitem.
    cbn [options dict_set dict_get normalized String.eqb Ascii.eqb Bool.eqb].
    unfold DeviceAccOperatorMixin.super_options.
    by rewrite !dict_get_del_ne, Hv by done.
Qed.

(** The [blockeager] and [blocklazy] entries after normalization. *)
Lemma normalized_blocking oo mpi g extra md :
  let eager := default (BLOCK_EAGER cls) (dict_get "blockeager" oo) in
  (extra = "openmp" ∨ extra = "openacc") →
  DeviceAdvOperator._specialize_clusters
    (mkKwargs (dict_set extra (VBool true) (normalized cls oo mpi g)) md)
  = Ok (adv_passes (truthy eager)
          (truthy (default (VBool (negb (truthy eager)))
                           (dict_get "blocklazy" oo)))).
Proof.
  intros eager Hextra. unfold DeviceAdvOperator._specialize_clusters, getitem.
  destruct Hextra as [-> | ->];
    cbn [options dict_set dict_get normalized String.eqb Ascii.eqb Bool.eqb];
    fold eager; destruct (truthy eager);
    by destruct (truthy (default _ (dict_get "blocklazy" oo))).
Qed.

(** C9 (as amended). When the user gives no [blocklazy] entry, a run of
    the cluster stage applies [blocking] exactly once: eagerly, before the
    flop-reducing passes, when [blockeager] (the user's, else the class
    attribute [BLOCK_EAGER]) is true, and lazily, after CSE, otherwise. *)
Theorem adv_blocking_once kwargs :
  device_normalizable kwargs →
  dict_get "blocklazy" (options kwargs) = None →
  let eager :=
    truthy (default (BLOCK_EAGER cls) (dict_get "blockeager" (options kwargs))) in
  let applied := adv_passes eager (negb eager) in
  adv_cluster_stage DeviceOmpOperatorMixin._normalize_kwargs cls kwargs = Ok applied
  ∧ adv_cluster_stage DeviceAccOperatorMixin._normalize_kwargs cls kwargs = Ok applied
  ∧ blocking_count applied = 1.
Proof.
  intros Hok Hlazy eager applied.
  destruct (omp_normalize_kwargs_ok cls kwargs Hok) as (mpi & g & _ & _ & Homp).
  destruct (acc_normalize_kwargs_ok cls kwargs Hok) as (mpi' & g' & _ & _ & Hacc).
  unfold adv_cluster_stage. rewrite Homp, Hacc.
  rewrite !normalized_blocking by auto.
  unfold DeviceOmpOperatorMixin.super_options, DeviceAccOperatorMixin.super_options.
  rewrite !dict_get_del_ne, !dict_get_setdefault, Hlazy by done.
  change (String.eqb "blocklazy" "linearize") with false.
  change (String.eqb "blockeager" "linearize") with false.
  assert (∀ o : option value,
            match o with Some x => Some x | None => None end = o) as Hid
      by (by intros []).
  rewrite Hid. simpl default at 2 4. fold eager.
  repeat split; subst applied; by destruct eager.
Qed.

End backend_claims.

(** Options used to run the claims on: a device run with MPI off. *)
Lemma device_normalizable_example oo :
  dict_get "mpi" oo = Some (VBool false) →
  dict_get "gpu-fit" oo = None →
  bool_decide (Forall (λ k, k ∈ DeviceOperatorMixin.recognized ∨ k = "openmp")
                      (dict_keys oo)) →
  device_normalizable (mkKwargs oo (ModeName "advanced")).
Proof.
  intros Hmpi Hfit Hkeys. split; [by eexists|]. split.
  - unfold DeviceOperatorMixin.resolve_gpu_fit,
      DeviceOperatorMixin._normalize_gpu_fit, pop. simpl.
    rewrite Hfit. by eexists.
  - apply bool_decide_unpack in Hkeys. by apply Forall_forall.
Qed.

Lemma linearize_default_by_backend_witness :
  ∃ kw_omp kw_acc,
    DeviceOmpOperatorMixin._normalize_kwargs example_cls
      (mkKwargs [("mpi", VBool false)] (ModeName "advanced")) = Ok kw_omp
    ∧ DeviceAccOperatorMixin._normalize_kwargs example_cls
        (mkKwargs [("mpi", VBool false)] (ModeName "advanced")) = Ok kw_acc
    ∧ getitem "linearize" (options kw_omp) = Ok (VBool true)
    ∧ getitem "linearize" (options kw_acc) = Ok (VBool false).
Proof.
  apply (linearize_default_by_backend example_cls
           (mkKwargs [("mpi", VBool false)] (ModeName "advanced"))).
  - apply device_normalizable_example; [reflexivity..|]. vm_compute. exact I.
  - reflexivity.
Defined.

Lemma gpu_create_by_backend_witness :
  let kwargs :=
    mkKwargs [("mpi", VBool false);
              ("gpu-create", VTuple [VObj (DFunction "u")])]
             (ModeName "advanced") in
  (∃ kw_omp,
      DeviceOmpOperatorMixin._normalize_kwargs example_cls kwargs = Ok kw_omp
      ∧ DeviceOmpOperatorMixin._check_kwargs kw_omp
        = Raise (InvalidOperator
                   "Unsupported gpu-create option for omp operators"))
  ∧ (∃ kw_acc,
      DeviceAccOperatorMixin._normalize_kwargs example_cls kwargs = Ok kw_acc
      ∧ getitem "gpu-create" (options kw_acc)
        = Ok (VTuple [VObj (DFunction "u")])).
Proof.
  apply (gpu_create_by_backend example_cls
           (mkKwargs [("mpi", VBool false);
                      ("gpu-create", VTuple [VObj (DFunction "u")])]
                     (ModeName "advanced"))
           (VTuple [VObj (DFunction "u")])).
  - apply device_normalizable_example; [reflexivity..|]. vm_compute. exact I.
  - reflexivity.
  - discriminate.
Defined.

Lemma adv_blocking_once_witness :
  let kwargs := mkKwargs [("mpi", VBool false); ("blockeager", VBool false)]
                         (ModeName "advanced") in
  let applied :=
    [fuse true; fission; cire "invariants"; Lift;
     cire "sops"; factorize; optimize_pows; fuse false; cse; blocking] in
  adv_cluster_stage DeviceOmpOperatorMixin._normalize_kwargs example_cls kwargs
  = Ok applied
  ∧ adv_cluster_stage DeviceAccOperatorMixin._normalize_kwargs example_cls kwargs
    = Ok applied
  ∧ blocking_count applied = 1.
Proof.
  apply (adv_blocking_once example_cls
           (mkKwargs [("mpi", VBool false); ("blockeager", VBool false)]
                     (ModeName "advanced"))).
  - apply device_normalizable_example; [reflexivity..|]. vm_compute. exact I.
  - reflexivity.
Defined.

(** C9, the claim as stated fails: with [blockeager] and [blocklazy] both
    set by the user, one run applies [blocking] before the flop-reducing
    passes and again after CSE. *)
Lemma adv_blocking_twice :
  let kwargs :=
    mkKwargs [("mpi", VBool false); ("blockeager", VBool true);
              ("blocklazy", VBool true)] (ModeName "advanced") in
  let applied :=
    [fuse true; fission; cire "invariants"; Lift; blocking;
     cire "sops"; factorize; optimize_pows; fuse false; cse; blocking] in
  adv_cluster_stage DeviceOmpOperatorMixin._normalize_kwargs example_cls kwargs
  = Ok applied
  ∧ adv_cluster_stage DeviceAccOperatorMixin._normalize_kwargs example_cls kwargs
    = Ok applied
  ∧ blocking_count applied = 2.
Proof. repeat split. Qed.

(** ** The streaming keys *)

Section streaming_facts.
Import Streaming.
Context {Dimension : Type} `{Countable Dimension}.
Context (is_on_device : Function (Dimension:=Dimension) → value → bool).

#[local] Abbreviation stream_dims := (Streaming.stream_dims is_on_device).
#[local] Abbreviation off_device := (Streaming.off_device is_on_device).
#[local] Abbreviation candidates := (Streaming.candidates is_on_device).

Lemma stream_dims_off_device options g items :
  getitem "gpu-fit" options = Ok g →
  stream_dims options items = Ok (list_to_set (time_dim <$> off_device g items)).
Proof.
  intros Hg. induction items as [|f items IH]; simpl; [done|].
  rewrite Hg, IH. unfold Streaming.off_device. rewrite filter_cons.
  destruct (is_on_device f g) eqn:E.
  - by rewrite decide_False by done.
  - by rewrite decide_True by done.
Qed.

Lemma elements_small (s : gset Dimension) :
  ¬ 1 < size s →
  elements s = match pop_or_none s with Some d => [d] | None => [] end.
Proof.
  unfold pop_or_none, size, set_size. simpl.
  destruct (elements s) as [|d [|d' l]]; simpl; [done..|lia].
Qed.

(** Whatever shape [stream_key] gives its result, the tuple made of it
    lists the time dimensions that were collected. *)
Lemma stream_key_as_tuple options g items :
  getitem "gpu-fit" options = Ok g →
  ∃ r, stream_key_wrap is_on_device options items = Ok r
       ∧ as_tuple_key r
         = elements (list_to_set (C:=gset Dimension)
                       (time_dim <$> off_device g items)).
Proof.
  intros Hg. unfold stream_key_wrap.
  rewrite (stream_dims_off_device _ _ _ Hg).
  set (s := list_to_set _).
  destruct (decide (1 < size s)) as [|Hsmall]; [by eexists|].
  rewrite (elements_small s Hsmall).
  destruct (pop_or_none s); by eexists.
Qed.

Lemma list_to_set_fmap_elements (φ : Dimension → Dimension) (l : list Dimension) :
  list_to_set (C:=gset Dimension)
    (φ <$> elements (list_to_set (C:=gset Dimension) l))
  = list_to_set (φ <$> l).
Proof.
  apply set_eq. intros d.
  rewrite !elem_of_list_to_set, !list_elem_of_fmap.
  by setoid_rewrite elem_of_elements; setoid_rewrite elem_of_list_to_set.
Qed.

(** [task_key] in closed form. *)
Lemma task_key_candidates options g c :
  getitem "gpu-fit" options = Ok g →
  task_key is_on_device options c
  = if decide (1 < size (candidates g c))
    then Raise (ValueError "Cannot determine a unique task Dimension")
    else Ok (pop_or_none (candidates g c)).
Proof.
  intros Hg. unfold task_key, task_wrap, stream_key.
  destruct (stream_key_as_tuple options g (writes c) Hg) as (r & -> & ->).
  by rewrite list_to_set_fmap_elements.
Qed.

(** C3 (as amended). With more than one candidate dimension [task_key]
    raises [ValueError] with a fixed message, which carries neither the
    cluster nor the candidates; when the cluster writes no off-device
    function it returns [None]; when it writes exactly one, it returns the
    dimension of the iteration space for that function's time dimension. *)
Theorem task_key_cases options g c :
  getitem "gpu-fit" options = Ok g →
  (1 < size (candidates g c) →
   task_key is_on_device options c
   = Raise (ValueError "Cannot determine a unique task Dimension"))
  ∧ (off_device g (writes c) = [] →
     task_key is_on_device options c = Ok None)
  ∧ (∀ f, off_device g (writes c) = [f] →
     task_key is_on_device options c = Ok (Some (ispace_dim c (time_dim f)))).
Proof.
  intros Hg. rewrite (task_key_candidates _ _ _ Hg).
  split; [|split].
  - intros Hmany. by rewrite decide_True.
  - intros Hnone. unfold Streaming.candidates. rewrite Hnone.
    rewrite !fmap_nil, list_to_set_nil, size_empty.
    by rewrite decide_False by lia.
  - intros f Hone. unfold Streaming.candidates. rewrite Hone.
    rewrite !fmap_cons, !fmap_nil, list_to_set_cons, list_to_set_nil.
    rewrite (right_id_L ∅ (∪)), size_singleton.
    rewrite decide_False by lia.
    unfold pop_or_none. by rewrite elements_singleton.
Qed.

(** C4. Whenever [task_key] returns a dimension for a cluster,
    [memcpy_key] returns [None] for it. *)
Theorem memcpy_key_yields_to_task_key options c d :
  task_key is_on_device options c = Ok (Some d) →
  memcpy_key is_on_device options c = Ok None.
Proof.
  intros Htask. unfold memcpy_key, memcpy_wrap. by rewrite Htask.
Qed.

End streaming_facts.

Lemma task_key_cases_witness :
  (1 < size (Streaming.candidates example_is_on_device (VTuple [VNone]) cluster_u) →
   Streaming.task_key example_is_on_device example_options cluster_u
   = Raise (ValueError "Cannot determine a unique task Dimension"))
  ∧ (Streaming.off_device example_is_on_device (VTuple [VNone])
       (Streaming.writes cluster_u) = [] →
     Streaming.task_key example_is_on_device example_options cluster_u = Ok None)
  ∧ (∀ f, Streaming.off_device example_is_on_device (VTuple [VNone])
            (Streaming.writes cluster_u) = [f] →
     Streaming.task_key example_is_on_device example_options cluster_u
     = Ok (Some (Streaming.ispace_dim cluster_u (Streaming.time_dim f)))).
Proof.
  apply (task_key_cases example_is_on_device example_options (VTuple [VNone])
           cluster_u).
  reflexivity.
Defined.

(** C3, the claim as stated fails: two clusters with different candidate
    dimensions make [task_key] raise one and the same exception, so the
    exception carries neither the cluster nor its candidates. *)
Lemma task_key_error_carries_nothing :
  Streaming.task_key example_is_on_device example_options cluster_uv
  = Raise (ValueError "Cannot determine a unique task Dimension")
  ∧ Streaming.task_key example_is_on_device example_options cluster_uw
    = Raise (ValueError "Cannot determine a unique task Dimension")
  ∧ Streaming.candidates example_is_on_device (VTuple [VNone]) cluster_uv
    = {[ "time"; "time_sub0" ]}
  ∧ Streaming.candidates example_is_on_device (VTuple [VNone]) cluster_uw
    = {[ "time"; "time_sub1" ]}
  ∧ "time_sub0" ∉ Streaming.candidates example_is_on_device (VTuple [VNone])
                     cluster_uw.
Proof.
  assert (Streaming.candidates example_is_on_device (VTuple [VNone]) cluster_uv
          = {[ "time"; "time_sub0" ]}) as Huv.
  { unfold Streaming.candidates. simpl. set_solver. }
  assert (Streaming.candidates example_is_on_device (VTuple [VNone]) cluster_uw
          = {[ "time"; "time_sub1" ]}) as Huw.
  { unfold Streaming.candidates. simpl. set_solver. }
  rewrite !(task_key_candidates _ example_options (VTuple [VNone])) by reflexivity.
  rewrite Huv, Huw.
  rewrite !size_union, !size_singleton by set_solver.
  repeat split; set_solver.
Qed.

Lemma memcpy_key_yields_to_task_key_witness :
  Streaming.memcpy_key example_is_on_device example_options cluster_u = Ok None.
Proof.
  apply (memcpy_key_yields_to_task_key example_is_on_device example_options
           cluster_u "time").
  rewrite (task_key_candidates _ example_options (VTuple [VNone])) by reflexivity.
  assert (Streaming.candidates example_is_on_device (VTuple [VNone]) cluster_u
          = {[ "time" ]}) as ->.
  { unfold Streaming.candidates. simpl. set_solver. }
  rewrite size_singleton. unfold Streaming.pop_or_none.
  by rewrite elements_singleton.
Defined.

(** ** Lowering *)

Module Import LoweringFacts.
Import Lowering.

(** Induction on expressions that reaches the expressions held in lists:
    indices, arguments and initializers. *)
Section expr_induction.
Context (P : expr → Prop).
Context (HNum : ∀ z, P (Num z)) (HSym : ∀ s, P (Sym s)).
Context (HAdd : ∀ a b, P a → P b → P (Add a b)).
Context (HMul : ∀ a b, P a → P b → P (Mul a b)).
Context (HIndexed : ∀ f l,
  (∀ init, initvalue f = Some init → Forall P init) → Forall P l →
  P (Indexed f l)).
Context (HFunApp : ∀ f l,
  (∀ init, initvalue f = Some init → Forall P init) → Forall P l →
  P (FunApp f l)).
Context (HEq : ∀ l r s, P l → P r → P (Eq l r s)).

Lemma expr_nested_ind : ∀ e : expr, P e.
Proof.
  exact (fix IH (e : expr) : P e :=
    let all := fix all (l : list expr) : Forall P l :=
      match l with
      | [] => @List.Forall_nil _ P
      | x :: l' => @List.Forall_cons _ P x l' (IH x) (all l')
      end in
    let init_all (f : Function expr)
      : ∀ init, initvalue f = Some init → Forall P init :=
      match f with
      | mkFunction _ _ _ _ o =>
          match o with
          | Some init0 => λ init Heq,
              eq_ind init0 (Forall P) (all init0) init
                     (f_equal (default init0) Heq)
          | None => λ init Heq,
              match Heq in _ = y
                    return match y with Some _ => Forall P init | None => True end
              with eq_refl => I end
          end
      end in
    match e with
    | Num z => HNum z
    | Sym s => HSym s
    | Add a b => HAdd a b (IH a) (IH b)
    | Mul a b => HMul a b (IH a) (IH b)
    | Indexed f l => HIndexed f l (init_all f) (all l)
    | FunApp f l => HFunApp f l (init_all f) (all l)
    | Eq l r s => HEq l r s (IH l) (IH r)
    end).
Qed.

End expr_induction.

(** *** Equality of expressions *)

Lemma list_eqb_eq {A} (eqb : A → A → bool) (l1 l2 : list A) :
  Forall (λ a, ∀ b, eqb a b = true ↔ a = b) l1 →
  list_eqb eqb l1 l2 = true ↔ l1 = l2.
Proof.
  intros Hall. revert l2.
  induction Hall as [|a l1 Ha _ IH]; intros [|b l2]; simpl; try done.
  rewrite andb_true_iff, Ha, IH. naive_solver.
Qed.

Lemma Function_eqb_eq {E} (eqb : E → E → bool) (f g : Function E) :
  (∀ init, initvalue f = Some init →
           Forall (λ a, ∀ b, eqb a b = true ↔ a = b) init) →
  Function_eqb eqb f g = true ↔ f = g.
Proof.
  intros Hinit. destruct f as [n1 d1 s1 a1 i1], g as [n2 d2 s2 a2 i2].
  unfold Function_eqb. simpl in *.
  rewrite !andb_true_iff, String.eqb_eq, !bool_decide_eq_true, Bool.eqb_true_iff.
  assert (option_eqb (list_eqb eqb) i1 i2 = true ↔ i1 = i2) as ->.
  { destruct i1 as [l1|], i2 as [l2|]; simpl; try done.
    rewrite list_eqb_eq by auto. naive_solver. }
  naive_solver.
Qed.

Lemma expr_eqb_eq (a b : expr) : expr_eqb a b = true ↔ a = b.
Proof.
  revert b. induction a as [z|s|a1 a2 IH1 IH2|a1 a2 IH1 IH2|f l Hf Hl|f l Hf Hl
                           |l r s IHl IHr] using expr_nested_ind;
    intros [z'|s'|b1 b2|b1 b2|g l'|g l'|l' r' s']; simpl; try done.
  - rewrite Z.eqb_eq. naive_solver.
  - rewrite String.eqb_eq. naive_solver.
  - rewrite andb_true_iff, IH1, IH2. naive_solver.
  - rewrite andb_true_iff, IH1, IH2. naive_solver.
  - rewrite andb_true_iff, Function_eqb_eq, list_eqb_eq by done. naive_solver.
  - rewrite andb_true_iff, Function_eqb_eq, list_eqb_eq by done. naive_solver.
  - rewrite !andb_true_iff, IHl, IHr, bool_decide_eq_true. naive_solver.
Qed.

Lemma expr_eqb_refl (a : expr) : expr_eqb a a = true.
Proof. by apply expr_eqb_eq. Qed.

Lemma expr_eqb_neq (a b : expr) : a ≠ b → expr_eqb a b = false.
Proof.
  intros Hne. destruct (expr_eqb a b) eqn:E; [|done].
  by apply expr_eqb_eq in E.
Qed.

(** *** Mappings *)

Lemma rules_get_set k k' v r :
  rules_get k (rules_set k' v r)
  = if expr_eqb k k' then Some v else rules_get k r.
Proof.
  induction r as [|[k0 v0] r IH]; simpl; [done|].
  destruct (expr_eqb k' k0) eqn:E1; simpl.
  - apply expr_eqb_eq in E1 as <-. by destruct (expr_eqb k k').
  - destruct (expr_eqb k k0) eqn:E2; [|done].
    apply expr_eqb_eq in E2 as <-.
    destruct (expr_eqb k k') eqn:E3; [|done].
    apply expr_eqb_eq in E3 as <-. by rewrite expr_eqb_refl in E1.
Qed.

Lemma rules_get_Some k v r :
  rules_get k r = Some v → (k, v) ∈ r.
Proof.
  induction r as [|[k0 v0] r IH]; simpl; [done|].
  destruct (expr_eqb k k0) eqn:E.
  - apply expr_eqb_eq in E as <-. intros [= <-]. set_solver.
  - set_solver.
Qed.

Lemma rules_get_None k r :
  rules_get k r = None ↔ k ∉ r.*1.
Proof.
  induction r as [|[k0 v0] r IH]; simpl; [set_solver|].
  destruct (expr_eqb k k0) eqn:E.
  - apply expr_eqb_eq in E as <-. set_solver.
  - assert (k ≠ k0) by (intros ->; by rewrite expr_eqb_refl in E). set_solver.
Qed.

(** In a mapping with distinct keys every entry is found. *)
Lemma rules_get_NoDup k v r :
  NoDup r.*1 → (k, v) ∈ r → rules_get k r = Some v.
Proof.
  induction r as [|[k0 v0] r IH]; simpl; [set_solver|].
  rewrite NoDup_cons. intros [Hk0 Hnd] Hin.
  apply elem_of_cons in Hin as [[= <- <-]|Hin].
  - by rewrite expr_eqb_refl.
  - rewrite expr_eqb_neq; [by apply IH|].
    intros ->. apply Hk0. apply list_elem_of_fmap. by exists (k0, v).
Qed.

(** [update]: an entry of the added mapping wins, the others stay. *)
Lemma rules_get_update k r o :
  NoDup o.*1 →
  rules_get k (rules_update r o)
  = match rules_get k o with Some v => Some v | None => rules_get k r end.
Proof.
  unfold rules_update. revert r.
  induction o as [|[k0 v0] o IH]; intros r; simpl; [done|].
  rewrite NoDup_cons. intros [Hk0 Hnd]. rewrite IH by done.
  destruct (rules_get k o) as [v|] eqn:E.
  - rewrite expr_eqb_neq; [done|]. intros Heq. apply Hk0.
    apply rules_get_Some in E. apply list_elem_of_fmap.
    exists (k, v). by split.
  - rewrite rules_get_set. by destruct (expr_eqb k k0).
Qed.

Lemma dimension_rules_NoDup (m : dimension_map_t) :
  NoDup (dimension_rules m).*1.
Proof.
  assert ((dimension_rules m).*1 = Sym <$> (map_to_list m).*1) as ->.
  { unfold dimension_rules. rewrite <- !list_fmap_compose.
    by apply list_fmap_ext. }
  apply NoDup_fmap_2; [by intros ?? [=]|]. apply NoDup_fst_map_to_list.
Qed.

Lemma dimension_rules_keys (m : dimension_map_t) k v :
  (k, v) ∈ dimension_rules m → ∃ s, k = Sym s.
Proof.
  unfold dimension_rules. rewrite list_elem_of_fmap.
  intros ([s s'] & [= -> ->] & _). by eexists.
Qed.

(** *** The loop over the accesses *)

Section refinement.
Context (indexify : Function expr → list expr → dimension_map_t → expr).

#[local] Abbreviation lowered_top := (λ a : expr, lowered (dimension_map_of a) a).
#[local] Abbreviation access := (λ i : Function expr * list expr, Indexed i.1 i.2).

Lemma mapM_all_Some {A B} (g : A → option B) (h : A → B) (l : list A) :
  Forall (λ x, g x = Some (h x)) l → mapM g l = Some (h <$> l).
Proof.
  induction 1 as [|x l Hx _ IH]; [done|].
  simpl. by rewrite Hx, IH.
Qed.

Lemma lower_indexed_lowered (lower : expr → option expr) dimension_map f indices :
  Forall (λ a, lower a = Some (lowered_top a)) indices →
  (∀ init, initvalue f = Some init →
           Forall (λ a, lower a = Some (lowered_top a)) init) →
  lower_indexed lower dimension_map (f, indices)
  = Some (Indexed f indices, lowered dimension_map (Indexed f indices)).
Proof.
  intros Hidx Hinit. unfold lower_indexed.
  rewrite (mapM_all_Some _ (λ ao, Add (lowered_top ao.1) (Num ao.2))); last first.
  { generalize (size_nodomain_left f).
    induction Hidx as [|a l Ha _ IH]; intros [|o left]; simpl; constructor.
    - simpl. by rewrite Ha.
    - apply IH. }
  simpl.
  assert (match is_Array f, initvalue f with
          | true, Some init =>
              initvalue ← mapM lower init; Some (rebuild_initvalue f initvalue)
          | _, _ => Some f
          end
          = Some (match is_Array f, initvalue f with
                  | true, Some init => rebuild_initvalue f (map lowered_top init)
                  | _, _ => f
                  end)) as ->.
  { destruct (is_Array f); [|done].
    destruct (initvalue f) as [init|] eqn:E; [|done].
    by rewrite (mapM_all_Some _ lowered_top) by auto. }
  simpl. do 3 f_equal.
  generalize (size_nodomain_left f) (dimensions f). clear Hidx Hinit.
  unfold remap. destruct (decide (dimension_map = ∅)).
  - induction indices as [|a l IH]; intros [|o left] [|d dims]; simpl; try done.
    f_equal. apply IH.
  - induction indices as [|a l IH]; intros [|o left] [|d dims]; simpl; try done.
    f_equal. apply IH.
Qed.

Lemma assign_all_fold step (K V : Function expr * list expr → expr) keys mapper :
  Forall (λ k, step k = Some (K k, V k)) keys →
  assign_all step keys mapper
  = Some (fold_left (λ m k, rules_set (K k) (V k) m) keys mapper).
Proof.
  intros Hall. revert mapper.
  induction Hall as [|k keys Hk _ IH]; intros mapper; simpl; [done|].
  by rewrite Hk, IH.
Qed.

Lemma rules_get_fold_in (K : Function expr * list expr → expr) (W : expr → expr)
    keys mapper k :
  k ∈ keys →
  rules_get (K k) (fold_left (λ m k, rules_set (K k) (W (K k)) m) keys mapper)
  = Some (W (K k)).
Proof.
  revert mapper. induction keys as [|k0 keys IH] using rev_ind; [set_solver|].
  intros mapper Hin. rewrite fold_left_app. simpl. rewrite rules_get_set.
  destruct (expr_eqb (K k) (K k0)) eqn:E.
  - apply expr_eqb_eq in E. by rewrite E.
  - apply IH. apply elem_of_app in Hin as [|Hin]; [done|].
    apply list_elem_of_singleton in Hin as ->. by rewrite expr_eqb_refl in E.
Qed.

Lemma rules_get_fold_notin (K V : Function expr * list expr → expr)
    keys mapper κ :
  (∀ k, k ∈ keys → K k ≠ κ) →
  rules_get κ (fold_left (λ m k, rules_set (K k) (V k) m) keys mapper)
  = rules_get κ mapper.
Proof.
  revert mapper. induction keys as [|k0 keys IH]; intros mapper Hne; [done|].
  simpl. rewrite IH by set_solver. rewrite rules_get_set.
  rewrite expr_eqb_neq; [done|]. intros ->. eapply Hne; [|done]. set_solver.
Qed.

(** *** Expressions in index notation *)

Lemma index_notation_find e :
  index_notation e = true → find_functions e = [].
Proof.
  induction e as [z|s|a b IHa IHb|a b IHa IHb|f l _ Hl|f l _ _|l r s IHl IHr]
    using expr_nested_ind; simpl; try done.
  - intros [??]%andb_true_iff. by rewrite IHa, IHb.
  - intros [??]%andb_true_iff. by rewrite IHa, IHb.
  - intros [Hall _]%andb_true_iff. rewrite List.forallb_forall in Hall.
    induction Hl as [|a l Ha _ IH]; [done|]. simpl.
    rewrite Ha by (apply Hall; by left).
    rewrite IH; [done|]. intros x Hx. apply Hall. by right.
  - intros [??]%andb_true_iff. by rewrite IHl, IHr.
Qed.

Lemma list_sum_elem (n : nat) (l : list nat) : n ∈ l → (n ≤ list_sum l)%nat.
Proof.
  induction l as [|m l IH]; [set_solver|].
  intros [->|Hin]%elem_of_cons; simpl; [lia|]. specialize (IH Hin). lia.
Qed.

(** The indices and the initializer of an access found by
    [retrieve_indexed] are in index notation and smaller than the
    expression. *)
Lemma retrieve_indexed_parts e f indices :
  index_notation e = true →
  (f, indices) ∈ retrieve_indexed e →
  let small := λ a, index_notation a = true ∧ (esize a < esize e)%nat in
  Forall small indices
  ∧ ∀ init, initvalue f = Some init → Forall small init.
Proof.
  induction e as [z|s|a IHa b IHb|a IHa b IHb|g l|g l|l IHl r IHr s];
    simpl; try (by intros _ ?%not_elem_of_nil).
  - intros [Ha Hb]%andb_true_iff [Hin|Hin]%elem_of_app;
      [destruct (IHa Ha Hin) as [H1 H2] | destruct (IHb Hb Hin) as [H1 H2]];
      (split; [|intros init Hinit; specialize (H2 init Hinit)]);
      (eapply Forall_impl; [eassumption|]); simpl; intros ? [? ?]; split; (done || lia).
  - intros [Ha Hb]%andb_true_iff [Hin|Hin]%elem_of_app;
      [destruct (IHa Ha Hin) as [H1 H2] | destruct (IHb Hb Hin) as [H1 H2]];
      (split; [|intros init Hinit; specialize (H2 init Hinit)]);
      (eapply Forall_impl; [eassumption|]); simpl; intros ? [? ?]; split; (done || lia).
  - intros [Hl Hinit]%andb_true_iff [= -> ->]%list_elem_of_singleton.
    rewrite List.forallb_forall in Hl. split.
    + apply Forall_forall. intros a Ha. split; [by apply Hl, list_elem_of_In|].
      assert (esize a ≤ list_sum (map esize l))%nat
        by (apply list_sum_elem, list_elem_of_fmap; eauto). lia.
    + intros init Hi. rewrite Hi in Hinit |- *.
      rewrite List.forallb_forall in Hinit.
      apply Forall_forall. intros a Ha. split; [by apply Hinit, list_elem_of_In|].
      assert (esize a ≤ list_sum (map esize init))%nat
        by (apply list_sum_elem, list_elem_of_fmap; eauto). lia.
  - done.
  - intros [Ha Hb]%andb_true_iff [Hin|Hin]%elem_of_app;
      [destruct (IHl Ha Hin) as [H1 H2] | destruct (IHr Hb Hin) as [H1 H2]];
      (split; [|intros init Hinit; specialize (H2 init Hinit)]);
      (eapply Forall_impl; [eassumption|]); simpl; intros ? [? ?]; split; (done || lia).
Qed.

(** Applying a mapping that holds the lowered accesses and the dimension
    map lowers the expression. *)
Lemma xreplace_lowered mapper dimension_map e :
  index_notation e = true →
  (∀ i, i ∈ retrieve_indexed e →
        rules_get (access i) mapper = Some (lowered dimension_map (access i))) →
  (∀ s, rules_get (Sym s) mapper
        = rules_get (Sym s) (dimension_rules dimension_map)) →
  (∀ k, match k with
        | Indexed _ _ | Sym _ => True
        | _ => rules_get k mapper = None
        end) →
  xreplace mapper e = lowered dimension_map e.
Proof.
  intros Hidx Hacc Hsym Hother.
  induction e as [z|s|a IHa b IHb|a IHa b IHb|g l|g l|l IHl r IHr s].
  - simpl. by rewrite (Hother (Num z)).
  - simpl. rewrite Hsym.
    by destruct (rules_get (Sym s) (dimension_rules dimension_map)).
  - simpl in *. apply andb_true_iff in Hidx as [Ha Hb].
    rewrite (Hother (Add a b)). rewrite IHa, IHb; set_solver.
  - simpl in *. apply andb_true_iff in Hidx as [Ha Hb].
    rewrite (Hother (Mul a b)). rewrite IHa, IHb; set_solver.
  - specialize (Hacc (g, l)). simpl in Hacc.
    unfold xreplace. fold xreplace. simpl rules_get.
    rewrite Hacc by set_solver. done.
  - done.
  - simpl in *. apply andb_true_iff in Hidx as [Ha Hb].
    rewrite (Hother (Eq l r s)). rewrite IHl, IHr; set_solver.
Qed.

Lemma rules_get_dimension_rules_not_sym m k :
  (∀ s, k ≠ Sym s) → rules_get k (dimension_rules m) = None.
Proof.
  intros Hk. destruct (rules_get k (dimension_rules m)) as [v|] eqn:E; [|done].
  apply rules_get_Some, dimension_rules_keys in E as [s ->]. by destruct (Hk s).
Qed.

(** With enough fuel, [lower_expr] without user substitutions computes the
    lowering [lowered] of an expression in index notation. *)
Lemma lower_expr_lowered fuel e :
  index_notation e = true →
  (esize e < fuel)%nat →
  lower_expr indexify fuel [] e = Some (lowered (dimension_map_of e) e).
Proof.
  revert e. induction fuel as [|fuel IH]; intros e Hidx Hfuel; [lia|].
  unfold lower_expr. fold (lower_expr indexify).
  set (dimension_map := dimension_map_of e).
  rewrite (index_notation_find e Hidx).
  cbn [assign_all mbind option_bind].
  rewrite (assign_all_fold _ access (λ i, lowered dimension_map (access i)));
    last first.
  { apply Forall_forall. intros [f indices] Hin.
    destruct (retrieve_indexed_parts e f indices Hidx Hin) as [Hi Hinit].
    apply lower_indexed_lowered.
    - eapply Forall_impl; [exact Hi|]. intros a [Ha Hsize]. apply IH; [done|lia].
    - intros init Hf. eapply Forall_impl; [exact (Hinit init Hf)|].
      intros a [Ha Hsize]. apply IH; [done|lia]. }
  cbn [mbind option_bind]. f_equal. unfold uxreplace.
  match goal with
  | |- xreplace (rules_update ?r []) _ = _ => change (rules_update r []) with r
  end.
  apply xreplace_lowered; [done|..].
  - intros i Hin. rewrite rules_get_update by apply dimension_rules_NoDup.
    rewrite rules_get_dimension_rules_not_sym by done.
    by apply (rules_get_fold_in access (lowered dimension_map)).
  - intros s. rewrite rules_get_update by apply dimension_rules_NoDup.
    rewrite rules_get_fold_notin by done.
    by destruct (rules_get (Sym s) (dimension_rules dimension_map)).
  - intros k.
    destruct k; try done;
      (rewrite rules_get_update by apply dimension_rules_NoDup;
       rewrite rules_get_dimension_rules_not_sym by done;
       by rewrite rules_get_fold_notin by done).
Qed.

End refinement.

(** *** The lowered index *)

Lemma xreplace_unfold rule e :
  xreplace rule e
  = match rules_get e rule with
    | Some v => v
    | None =>
        match e with
        | Num _ | Sym _ => e
        | Add a b => Add (xreplace rule a) (xreplace rule b)
        | Mul a b => Mul (xreplace rule a) (xreplace rule b)
        | Indexed f indices => Indexed f (map (xreplace rule) indices)
        | FunApp f args => FunApp f (map (xreplace rule) args)
        | Eq lhs rhs subdomain =>
            Eq (xreplace rule lhs) (xreplace rule rhs) subdomain
        end
    end.
Proof. by destruct e. Qed.

(** The three cases of a lookup in [{d.spacing: 1, -d.spacing: -1}]. *)
Lemma rules_get_spacing d e :
  (e = Sym (spacing d) ∧ rules_get e (spacing_rules d) = Some (Num 1))
  ∨ (e = Mul (Num (-1)) (Sym (spacing d))
     ∧ rules_get e (spacing_rules d) = Some (Num (-1)))
  ∨ (e ≠ Sym (spacing d) ∧ e ≠ Mul (Num (-1)) (Sym (spacing d))
     ∧ rules_get e (spacing_rules d) = None).
Proof.
  unfold spacing_rules. cbn [rules_get].
  destruct (expr_eqb e (Sym (spacing d))) eqn:E1.
  { left. by apply expr_eqb_eq in E1. }
  destruct (expr_eqb e (Mul (Num (-1)) (Sym (spacing d)))) eqn:E2.
  { right; left. by apply expr_eqb_eq in E2. }
  right; right. split; [|split]; [| |done]; intros ->; by rewrite expr_eqb_refl in *.
Qed.

(** Replacing the spacing of [d] and its negation by [1] and [-1] gives
    the value of the expression where the spacing is [1]. *)
Lemma eval_xreplace_spacing mem env d e :
  eval mem env (xreplace (spacing_rules d) e)
  = eval mem (<[spacing d := 1%Z]> env) e.
Proof.
  induction e as [z|s|a b IHa IHb|a b IHa IHb|f l _ Hl|f l _ Hl|l r s IHl IHr]
    using expr_nested_ind; rewrite xreplace_unfold;
    match goal with
    | |- context [rules_get ?x (spacing_rules d)] =>
        destruct (rules_get_spacing d x) as [[Heq ->]|[[Heq ->]|(Hn1 & Hn2 & ->)]]
    end;
    try done.
  - injection Heq as ->. simpl. by rewrite fn_lookup_insert.
  - simpl. rewrite fn_lookup_insert_ne; [done|].
    intros Hs. apply Hn1. by rewrite Hs.
  - simpl. by rewrite IHa, IHb.
  - injection Heq as -> ->. simpl. by rewrite fn_lookup_insert.
  - simpl. by rewrite IHa, IHb.
  - simpl. f_equal. rewrite map_map. apply map_ext_Forall.
    eapply Forall_impl; [exact Hl|]. done.
  - simpl. f_equal. rewrite map_map. apply map_ext_Forall.
    eapply Forall_impl; [exact Hl|]. done.
  - simpl. by rewrite IHl, IHr.
Qed.

(** No spacing of [d] is left after the replacement. *)
Lemma occurs_xreplace_spacing d e :
  occurs (spacing d) (xreplace (spacing_rules d) e) = false.
Proof.
  induction e as [z|s|a b IHa IHb|a b IHa IHb|f l _ Hl|f l _ Hl|l r s IHl IHr]
    using expr_nested_ind; rewrite xreplace_unfold;
    match goal with
    | |- context [rules_get ?x (spacing_rules d)] =>
        destruct (rules_get_spacing d x) as [[Heq ->]|[[Heq ->]|(Hn1 & Hn2 & ->)]]
    end;
    try done.
  - simpl. apply String.eqb_neq. by intros <-.
  - simpl. by rewrite IHa, IHb.
  - simpl. by rewrite IHa, IHb.
  - simpl. induction Hl as [|a l Ha _ IH]; [done|]. simpl. by rewrite Ha, IH.
  - simpl. induction Hl as [|a l Ha _ IH]; [done|]. simpl. by rewrite Ha, IH.
  - simpl. by rewrite IHl, IHr.
Qed.

(** *** The entry of one access *)

(** The entry [lower_indexed] computes for [f[indices]]: along each
    position with a dimension [d] and a left size [L], the index is the
    lowered index, shifted by [L], with the spacing of [d] replaced, and
    remapped. *)
Lemma lower_indexed_entry (lower : expr → option expr) dimension_map f indices key v :
  lower_indexed lower dimension_map (f, indices) = Some (key, v) →
  key = Indexed f indices
  ∧ ∃ f' indices',
      v = Indexed f' indices'
      ∧ ∀ k a d L,
          indices !! k = Some a →
          size_nodomain_left f !! k = Some L →
          dimensions f !! k = Some d →
          ∃ a', lower a = Some a'
                ∧ indices' !! k = Some (remap dimension_map (lower_index d L a')).
Proof.
  unfold lower_indexed.
  destruct (mapM _ (zip indices (size_nodomain_left f))) as [shifted|] eqn:Hm;
    [|done].
  cbn [mbind option_bind].
  destruct (match is_Array f, initvalue f with
            | true, Some init =>
                initvalue ← mapM lower init; Some (rebuild_initvalue f initvalue)
            | _, _ => Some f
            end) as [f'|]; [|done].
  cbn [mbind option_bind]. intros [= <- <-]. split; [done|].
  eexists _, _. split; [done|]. intros k a d L Ha HL Hd.
  apply mapM_Some_1 in Hm.
  assert (zip indices (size_nodomain_left f) !! k = Some (a, L)) as Hz.
  { apply lookup_zip_with_Some. eauto. }
  destruct (Forall2_lookup_l _ _ _ _ _ Hm Hz) as (s & Hs & Hlow).
  simpl in Hlow. destruct (lower a) as [a'|]; [|done].
  injection Hlow as <-. exists a'. split; [done|].
  assert (((λ id : expr * Dimension, xreplace (spacing_rules id.2) id.1)
             <$> zip shifted (dimensions f)) !! k = Some (lower_index d L a'))
    as Hk.
  { rewrite list_lookup_fmap.
    assert (zip shifted (dimensions f) !! k = Some (Add a' (Num L), d)) as ->
        by (apply lookup_zip_with_Some; eauto).
    done. }
  unfold remap. destruct (decide (dimension_map = ∅)); [done|].
  by rewrite list_lookup_fmap, Hk.
Qed.

Lemma mapM_lower_expr indexify fuel es :
  Forall (λ e, index_notation e = true ∧ (esize e < fuel)%nat) es →
  mapM (lower_expr indexify fuel []) es
  = Some ((λ e, lowered (dimension_map_of e) e) <$> es).
Proof.
  intros Hall. apply mapM_all_Some.
  eapply Forall_impl; [exact Hall|]. intros e [??]. by apply lower_expr_lowered.
Qed.

End LoweringFacts.

(** C1. Lowering shifts every index of an access by the left
    halo+padding size of its dimension and replaces the spacing of that
    dimension and its negation by [1] and [-1]:
    - the entry that the loop of [_lower_exprs] computes for an access
      [f[indices]] holds, at each position [k] with dimension [d] and left
      size [L], the index [lower_index d L a'] (remapped by the subdomain, if
      any), where [a'] is the lowered index [indices[k]];
    - with enough fuel, [lower_exprs] without user substitutions returns,
      for an equation in index notation, the equation where this has been
      done to every access at any depth ([lowered]);
    - the value of [lower_index d L a'] is the value of [a'] where the
      spacing of [d] is [1], plus [L], and the spacing of [d] does not occur
      in it. *)
Theorem lower_exprs_shifts_indices
    (indexify : Lowering.Function Lowering.expr → list Lowering.expr →
                Lowering.dimension_map_t → Lowering.expr)
    (fuel : nat) (e : Lowering.expr) :
  Lowering.index_notation e = true →
  (Lowering.esize e < fuel)%nat →
  Lowering.lower_exprs indexify fuel (Lowering.One e) None
  = Some (Lowering.One (Lowering.lowered (Lowering.dimension_map_of e) e))
  ∧ (∀ lower dimension_map f indices key v,
       Lowering.lower_indexed lower dimension_map (f, indices) = Some (key, v) →
       key = Lowering.Indexed f indices
       ∧ ∃ f' indices',
           v = Lowering.Indexed f' indices'
           ∧ ∀ k a d L,
               indices !! k = Some a →
               Lowering.size_nodomain_left f !! k = Some L →
               Lowering.dimensions f !! k = Some d →
               ∃ a', lower a = Some a'
                     ∧ indices' !! k
                       = Some (Lowering.remap dimension_map
                                 (Lowering.lower_index d L a')))
  ∧ (∀ mem env d L a,
       Lowering.eval mem env (Lowering.lower_index d L a)
       = (Lowering.eval mem (<[Lowering.spacing d := 1%Z]> env) a + L)%Z)
  ∧ (∀ d L a,
       Lowering.occurs (Lowering.spacing d) (Lowering.lower_index d L a) = false).
Proof.
  intros Hidx Hfuel. split; [|split; [|split]].
  - unfold Lowering.lower_exprs, Lowering._lower_exprs. simpl default.
    by rewrite lower_expr_lowered.
  - apply lower_indexed_entry.
  - intros mem env d L a. unfold Lowering.lower_index.
    by rewrite eval_xreplace_spacing.
  - intros d L a. apply occurs_xreplace_spacing.
Qed.

Lemma lower_exprs_shifts_indices_witness :
  Lowering.lower_exprs example_indexify 40 (Lowering.One stencil_eq) None
  = Some (Lowering.One stencil_eq_lowered).
Proof.
  refine (proj1 (lower_exprs_shifts_indices example_indexify 40 stencil_eq _ _)).
  - reflexivity.
  - apply Nat.ltb_lt. reflexivity.
Defined.

(** ** Sorting the dimensions *)

Module Import DimSortFacts.
Import DimSort.

Lemma parent_smaller d p : parent d = Some p → p ≠ d.
Proof.
  intros Hp Heq.
  assert (derivation_size p < derivation_size d)%nat as Hlt.
  { destruct d as [n a b c [p'|] i]; simpl in Hp; [|done].
    injection Hp as ->. simpl. lia. }
  rewrite Heq in Hlt. lia.
Qed.

(** *** The placement of the dimensions *)

Lemma find_elem {A} (P : A → bool) (l : list A) x :
  find P l = Some x → x ∈ l ∧ P x = true.
Proof.
  induction l as [|y l IH]; simpl; [done|].
  destruct (P y) eqn:E.
  - intros [= ->]. split; [set_solver|done].
  - intros H. destruct (IH H). split; [set_solver|done].
Qed.

Lemma place_elem n relations remaining order :
  place n relations remaining = Ok order →
  ∀ d, d ∈ order ↔ d ∈ remaining.
Proof.
  revert remaining order.
  induction n as [|n IH]; intros remaining order; simpl.
  { destruct remaining; [|done]. by intros [= <-]. }
  destruct remaining as [|x rem]; [by intros [= <-]|].
  destruct (find _ (x :: rem)) as [d0|] eqn:Hfind; [|done].
  destruct (place n relations _) as [order'|] eqn:Hplace; [|done].
  intros [= <-] d. apply find_elem in Hfind as [Hin _].
  specialize (IH _ _ Hplace d).
  rewrite elem_of_cons, IH, list_elem_of_filter.
  destruct (decide (d = d0)) as [->|]; naive_solver.
Qed.

(** A dimension that stands before another one in a relation is placed
    before it. *)
Lemma place_respects n relations remaining order a d r :
  place n relations remaining = Ok order →
  a ∈ remaining → d ∈ remaining → a ≠ d →
  r ∈ relations → precedes r a d = true →
  before order a d.
Proof.
  revert remaining order.
  induction n as [|n IH]; intros remaining order; simpl.
  { destruct remaining; [|done]. by intros _ ?%not_elem_of_nil. }
  destruct remaining as [|x rem]; [by intros _ ?%not_elem_of_nil|].
  destruct (find _ (x :: rem)) as [d0|] eqn:Hfind; [|done].
  destruct (place n relations _) as [order'|] eqn:Hplace; [|done].
  intros [= <-] Ha Hd Hne Hr Hprec.
  apply find_elem in Hfind as [Hin Hfree].
  destruct (decide (d = d0)) as [->|Hd0].
  { (* [d] was placed while [a] was still to be placed: it was blocked *)
    exfalso. apply negb_true_iff in Hfree.
    assert (blocked relations (x :: rem) d0 = true) as Hb; [|congruence].
    unfold blocked. apply existsb_exists. exists r.
    split; [by apply list_elem_of_In|].
    apply existsb_exists. exists a. split; [by apply list_elem_of_In|].
    by rewrite bool_decide_eq_true_2, Hprec. }
  assert (d ∈ order') as Hd'.
  { apply (place_elem _ _ _ _ Hplace). by apply list_elem_of_filter. }
  destruct (decide (a = d0)) as [->|Ha0].
  - apply list_elem_of_split in Hd' as (l2 & l3 & ->). by exists [], l2, l3.
  - destruct (IH _ _ Hplace) as (l1 & l2 & l3 & ->); try done.
    + by apply list_elem_of_filter.
    + by apply list_elem_of_filter.
    + by exists (d0 :: l1), l2, l3.
Qed.

(** *** The order does not depend on how the sets are enumerated *)

Lemma existsb_same_elements {A} (P : A → bool) (l1 l2 : list A) :
  (∀ x, x ∈ l1 ↔ x ∈ l2) → existsb P l1 = existsb P l2.
Proof.
  intros Hsame. apply eq_true_iff_eq. rewrite !existsb_exists.
  setoid_rewrite <- list_elem_of_In. naive_solver.
Qed.

Lemma find_ext {A} (P Q : A → bool) (l : list A) :
  (∀ x, P x = Q x) → find P l = find Q l.
Proof. intros HPQ. induction l as [|x l IH]; simpl; [done|]. by rewrite HPQ, IH. Qed.

Lemma place_same_relations n rels1 rels2 remaining :
  (∀ r, r ∈ rels1 ↔ r ∈ rels2) →
  place n rels1 remaining = place n rels2 remaining.
Proof.
  intros Hsame. revert remaining.
  induction n as [|n IH]; intros remaining; simpl; [done|].
  destruct remaining as [|x rem]; [done|].
  rewrite (find_ext _ (λ d, negb (blocked rels2 (x :: rem) d))).
  - destruct (find _ (x :: rem)); [|done]. by rewrite IH.
  - intros d. unfold blocked. by rewrite (existsb_same_elements _ rels1 rels2).
Qed.

Lemma leb_le s1 s2 :
  String.leb s1 s2 = true ↔ String_as_OT.lt s1 s2 ∨ s1 = s2.
Proof.
  unfold String.leb. rewrite <- String_as_OT.cmp_lt, <- String_as_OT.cmp_eq.
  unfold String_as_OT.cmp. destruct (String.compare s1 s2); naive_solver.
Qed.

Lemma leb_trans s1 s2 s3 :
  String.leb s1 s2 = true → String.leb s2 s3 = true → String.leb s1 s3 = true.
Proof.
  rewrite !leb_le. intros [H12| ->] [H23| ->]; eauto.
  left. by eapply String_as_OT.lt_trans.
Qed.

(** The order of the names. *)
#[local] Abbreviation name_le := (λ a b : Dimension, String.leb (name a) (name b) = true).

Lemma filter_ordered_elem l d : d ∈ filter_ordered l ↔ d ∈ l.
Proof.
  induction l as [|x l IH]; simpl; [done|].
  rewrite !elem_of_cons, list_elem_of_filter, IH.
  destruct (decide (d = x)); naive_solver.
Qed.

Lemma filter_ordered_NoDup l : NoDup (filter_ordered l).
Proof.
  induction l as [|x l IH]; simpl; constructor.
  - rewrite list_elem_of_filter. naive_solver.
  - by apply NoDup_filter.
Qed.

Lemma insert_by_name_Permutation d l : insert_by_name d l ≡ₚ d :: l.
Proof.
  induction l as [|x l IH]; simpl; [done|].
  destruct (String.leb (name d) (name x)); [done|].
  rewrite IH. apply Permutation_swap.
Qed.

Lemma filter_sorted_Permutation l : filter_sorted l ≡ₚ filter_ordered l.
Proof.
  unfold filter_sorted. induction (filter_ordered l) as [|x l' IH]; simpl; [done|].
  by rewrite insert_by_name_Permutation, IH.
Qed.

Lemma insert_by_name_sorted d l :
  StronglySorted name_le l → StronglySorted name_le (insert_by_name d l).
Proof.
  induction 1 as [|x l Hl IH Hx]; simpl.
  { repeat constructor. }
  destruct (String.leb (name d) (name x)) eqn:E.
  - constructor; [by constructor|]. constructor; [done|].
    eapply Forall_impl; [exact Hx|]. intros y Hy. simpl in *. by eapply leb_trans.
  - constructor; [done|].
    rewrite insert_by_name_Permutation. constructor; [|done].
    destruct (String.leb_total (name d) (name x)); [congruence|done].
Qed.

Lemma filter_sorted_sorted l : StronglySorted name_le (filter_sorted l).
Proof.
  unfold filter_sorted. induction (filter_ordered l) as [|x l' IH]; simpl.
  - constructor.
  - by apply insert_by_name_sorted.
Qed.

Lemma filter_sorted_elem l d : d ∈ filter_sorted l ↔ d ∈ l.
Proof. by rewrite filter_sorted_Permutation, filter_ordered_elem. Qed.

Lemma filter_sorted_NoDup l : NoDup (filter_sorted l).
Proof. rewrite filter_sorted_Permutation. apply filter_ordered_NoDup. Qed.

(** Sorting by name gives one list for all the enumerations of a set
    whose dimensions have distinct names. *)
Lemma filter_sorted_same_elements l1 l2 :
  (∀ d, d ∈ l1 ↔ d ∈ l2) → distinct_names l1 →
  filter_sorted l1 = filter_sorted l2.
Proof.
  intros Hsame Hnames.
  apply (StronglySorted_unique_strong name_le);
    [|apply filter_sorted_sorted..|].
  - intros a b Ha Hb H1 H2. rewrite filter_sorted_elem in Ha, Hb.
    apply Hnames; [done|by apply Hsame|]. by apply String.leb_antisym.
  - rewrite !filter_sorted_Permutation.
    apply NoDup_Permutation; [apply filter_ordered_NoDup..|].
    intros d. by rewrite !filter_ordered_elem.
Qed.

(** *** The relations *)

Lemma parent_relation expr extra d p :
  d ∈ extra → is_Derived d = true → indirect d = false → parent d = Some p →
  [p; d] ∈ implicit_relations expr extra.
Proof.
  intros Hd Hder Hind Hp. unfold implicit_relations.
  apply elem_of_app. left. apply list_elem_of_omap. exists d.
  split; [done|]. by rewrite Hder, Hind, Hp.
Qed.

Lemma implicit_relations_same_sets e1 e2 extra r :
  same_sets e1 e2 →
  r ∈ implicit_relations e1 extra ↔ r ∈ implicit_relations e2 extra.
Proof.
  intros (Himp & Hign & Hrel & _). unfold implicit_relations.
  rewrite Himp, Hign.
  assert (∀ i,
    i ∈ ((if ignore_dim_sort e2 then [] else handle_indexed <$> indexeds e1)
         ++ [implicit_dims e2])%list
    ↔ i ∈ ((if ignore_dim_sort e2 then [] else handle_indexed <$> indexeds e2)
           ++ [implicit_dims e2])%list) as Hrels.
  { intros i. rewrite !elem_of_app. destruct (ignore_dim_sort e2); [done|].
    by rewrite Hrel. }
  rewrite !elem_of_app, !list_elem_of_fmap.
  split; (intros [?|(i & -> & Hi)]; [by left|right; exists i; split; [done|]]);
    by apply Hrels.
Qed.

(** *** Failure *)

Lemma find_none {A} (P : A → bool) (l : list A) :
  find P l = None → ∀ x, x ∈ l → P x = false.
Proof.
  induction l as [|y l IH]; simpl; [set_solver|].
  destruct (P y) eqn:E; [done|]. intros H x [->|Hx]%elem_of_cons; auto.
Qed.

Lemma filter_ne_length (d : Dimension) (l : list Dimension) :
  d ∈ l → (length (filter (λ x, x ≠ d) l) < length l)%nat.
Proof.
  induction l as [|y l IH]; [set_solver|].
  intros Hin. rewrite filter_cons. destruct (decide (y ≠ d)) as [Hne|Heq].
  - simpl. apply elem_of_cons in Hin as [->|Hin]; [done|].
    specialize (IH Hin). lia.
  - simpl. pose proof (length_filter (λ x, x ≠ d) l). lia.
Qed.

(** [place] fails only when it reaches dimensions that block one
    another: a cycle of the relations. *)
Lemma place_raise n relations remaining e :
  (length remaining ≤ n)%nat →
  place n relations remaining = Raise e →
  ∃ stuck, stuck ≠ [] ∧ stuck ⊆ remaining
           ∧ ∀ d, d ∈ stuck → blocked relations stuck d = true.
Proof.
  revert remaining e.
  induction n as [|n IH]; intros remaining e Hlen; simpl.
  { destruct remaining; [done|]. simpl in Hlen. lia. }
  destruct remaining as [|x rem]; [done|].
  destruct (find _ (x :: rem)) as [d0|] eqn:Hfind.
  - destruct (place n relations _) as [order'|e'] eqn:Hplace; [done|].
    intros _. apply find_elem in Hfind as [Hin _].
    pose proof (filter_ne_length d0 (x :: rem) Hin) as Hshort.
    destruct (IH (filter (λ y, y ≠ d0) (x :: rem)) e' ltac:(lia) Hplace) as (stuck & Hne & Hsub & Hblocked).
    exists stuck. split; [done|]. split; [|done].
    intros d Hd. apply Hsub in Hd. by apply list_elem_of_filter in Hd as [_ ?].
  - intros _. exists (x :: rem). split; [done|]. split; [done|].
    intros d Hd. apply (find_none _ _ Hfind) in Hd. by apply negb_false_iff.
Qed.

End DimSortFacts.

(** C2 (as amended). [Ordering] is modelled from the specification. The
    order [dimension_sort] returns holds the dimensions of [extra], and the
    parent of every derived dimension of [extra] that is not indirect stands
    before it, when the parent is in [extra] too; indirect derived
    dimensions get no such relation. [dimension_sort] fails only on
    dimensions that block one another. It is a function of the equation, and
    its result does not depend on the order in which the set of relations
    and the set [extra] are enumerated, when the dimensions of [extra] have
    distinct names. *)
Theorem dimension_sort_parent_first (expr : DimSort.Equation) :
  (∀ order,
     DimSort.dimension_sort expr = Ok order →
     (∀ d, d ∈ order ↔ d ∈ DimSort.extra_dims expr)
     ∧ ∀ d p,
         d ∈ DimSort.extra_dims expr →
         DimSort.is_Derived d = true →
         DimSort.indirect d = false →
         DimSort.parent d = Some p →
         p ∈ DimSort.extra_dims expr →
         DimSort.before order p d)
  ∧ (∀ e,
       DimSort.dimension_sort expr = Raise e →
       ∃ stuck,
         stuck ≠ [] ∧ stuck ⊆ DimSort.filter_sorted (DimSort.extra_dims expr)
         ∧ ∀ d, d ∈ stuck →
                DimSort.blocked
                  (DimSort.implicit_relations expr
                     (DimSort.filter_sorted (DimSort.extra_dims expr)))
                  stuck d = true)
  ∧ (∀ expr',
       DimSort.same_sets expr expr' →
       DimSort.distinct_names (DimSort.extra_dims expr) →
       DimSort.dimension_sort expr' = DimSort.dimension_sort expr).
Proof.
  unfold DimSort.dimension_sort, DimSort.Ordering.
  split; [|split].
  - intros order Hplace. split.
    + intros d. rewrite (place_elem _ _ _ _ Hplace). apply filter_sorted_elem.
    + intros d p Hd Hder Hind Hp Hpin.
      eapply place_respects; [exact Hplace|..].
      * by apply filter_sorted_elem.
      * by apply filter_sorted_elem.
      * by apply parent_smaller.
      * apply parent_relation; [|done..]. by apply filter_sorted_elem.
      * simpl. rewrite (bool_decide_eq_true_2 (p = p)) by done.
        by rewrite (bool_decide_eq_true_2 (d ∈ [d])) by apply list_elem_of_here.
  - intros e. by apply place_raise.
  - intros expr' Hsame Hnames.
    assert (DimSort.filter_sorted (DimSort.extra_dims expr')
            = DimSort.filter_sorted (DimSort.extra_dims expr)) as ->.
    { symmetry. apply filter_sorted_same_elements; [|done]. apply Hsame. }
    apply place_same_relations. intros r. symmetry.
    by apply implicit_relations_same_sets.
Qed.

(** The order of [subdomain_eq]: [time] before [t], [x] before [xi]. *)
Lemma dimension_sort_subdomain_eq :
  DimSort.dimension_sort subdomain_eq = Ok [dim_time; ds_t; ds_x; ds_xi; ds_y].
Proof. reflexivity. Qed.

(** C2, the claim as stated fails: [ci] is a derived dimension of
    [indirect_eq] and its parent [x] is placed after it. *)
Lemma dimension_sort_indirect_child_first :
  DimSort.dimension_sort indirect_eq = Ok [ds_ci; ds_x]
  ∧ DimSort.is_Derived ds_ci = true
  ∧ DimSort.parent ds_ci = Some ds_x.
Proof. repeat split. Qed.

(** ** Concretization *)

Module Import ConcretizeFacts.
Import Concretize.

Lemma list_eqb_refl {A} (eqb : A → A → bool) (l : list A) :
  Forall (λ a, eqb a a = true) l → list_eqb eqb l l = true.
Proof. induction 1 as [|a l Ha _ IH]; simpl; [done|]. by rewrite Ha, IH. Qed.

(** Every dimension, expression and function equals itself. *)
Lemma Dimension_eqb_refl : ∀ d, Dimension_eqb d d = true
with expr_eqb_refl : ∀ e, expr_eqb e e = true
with Function_eqb_refl : ∀ f, Function_eqb f f = true.
Proof.
  - intros [n|n p a b t|n p c|n p t f i]; simpl.
    + apply String.eqb_refl.
    + rewrite String.eqb_refl, Dimension_eqb_refl, !expr_eqb_refl.
      by rewrite bool_decide_eq_true_2.
    + rewrite String.eqb_refl, Dimension_eqb_refl. simpl.
      destruct c as [c|]; simpl; [apply expr_eqb_refl|done].
    + rewrite String.eqb_refl, Dimension_eqb_refl, bool_decide_eq_true_2 by done.
      simpl. destruct f as [f|], i as [i|]; simpl;
        rewrite ?Function_eqb_refl, ?Dimension_eqb_refl; done.
  - intros [z|s|d|o args|f args]; simpl.
    + apply Z.eqb_refl.
    + apply String.eqb_refl.
    + apply Dimension_eqb_refl.
    + rewrite String.eqb_refl. simpl.
      induction args as [|a args IH]; simpl; [done|].
      by rewrite expr_eqb_refl, IH.
    + rewrite Function_eqb_refl. simpl.
      induction args as [|a args IH]; simpl; [done|].
      by rewrite expr_eqb_refl, IH.
  - intros [n ds a]. simpl. rewrite String.eqb_refl, Bool.eqb_reflx.
    rewrite andb_true_r. simpl.
    induction ds as [|d ds IH]; simpl; [done|].
    by rewrite Dimension_eqb_refl, IH.
Qed.

Lemma dim_get_set {V} d (v : V) m : dim_get d (dim_set d v m) = Some v.
Proof.
  induction m as [|[k' v'] m IH]; simpl.
  - by rewrite Dimension_eqb_refl.
  - destruct (Dimension_eqb d k') eqn:E; simpl.
    + by rewrite Dimension_eqb_refl.
    + by rewrite E.
Qed.

Lemma in_mapper_set d d' st : in_mapper d (set_mapper d d' st) = true.
Proof. unfold in_mapper, set_mapper. simpl. by rewrite dim_get_set. Qed.

(** *** A dimension is concretized once in a run *)

(** A dimension that is mapped is skipped. *)
Lemma concretize_dimension_skip d st :
  in_mapper d st = true → concretize_dimension d st = Ok st.
Proof.
  intros Hin. destruct d; simpl; try done; by rewrite Hin.
Qed.

Lemma concretize_SubDimension_mapped n p a b t st st' :
  concretize_SubDimension (SubDimension n p a b t) st = Ok st' →
  in_mapper (SubDimension n p a b t) st' = true.
Proof.
  unfold concretize_SubDimension.
  destruct (in_mapper _ st) eqn:Hin; [by intros [= <-]|].
  destruct (make_names _ _) as [tkns reg].
  destruct (mapM _ _) as [thickness'|]; [|done].
  intros [= <-]. apply in_mapper_set.
Qed.

Lemma concretize_MultiSubDimension_mapped n p t f i st st' :
  concretize_MultiSubDimension (MultiSubDimension n p t f i) st = Ok st' →
  in_mapper (MultiSubDimension n p t f i) st' = true.
Proof.
  unfold concretize_MultiSubDimension.
  destruct (in_mapper _ st) eqn:Hin; [by intros [= <-]|].
  destruct (make_names _ _) as [tkns reg].
  destruct i as [idim0|]; [|intros [= <-]; apply in_mapper_set].
  destruct f as [d_functions|]; [|done]. simpl.
  destruct (dim_get idim0 _) as [idim1|];
    [destruct (fun_get d_functions _) as [functions'|]|];
    try destruct (make_name _ _) as [iname reg'];
    intros [= <-]; apply in_mapper_set.
Qed.

(** *** Expressions without subdimensions *)

Lemma fold_left_unchanged {A} (step : A → State → result State) (l : list A) st :
  Forall (λ a, step a st = Ok st) l →
  fold_left (λ r a, match r with Ok st => step a st | Raise e => Raise e end)
            l (Ok st) = Ok st.
Proof. induction 1 as [|a l Ha _ IH]; simpl; [done|]. by rewrite Ha. Qed.

(** With an empty mapper, a dimension and an expression without
    subdimensions leave the state as it is. *)
Lemma concretize_dimension_no_subdims :
  ∀ d st, mapper st = [] → no_subdims d = true →
          concretize_dimension d st = Ok st
with concretize_symbols_no_subdims :
  ∀ e st, mapper st = [] → no_subdims_expr e = true →
          concretize_symbols e st = Ok st.
Proof.
  - intros [n|n p a b t|n p c|n p t f i] st Hm; simpl; try done.
    intros [Hp Hc]%andb_true_iff.
    assert (∀ v, in_mapper v st = false) as Hnone
        by (intros v; unfold in_mapper; by rewrite Hm).
    rewrite Hnone.
    rewrite (concretize_dimension_no_subdims p st Hm Hp).
    rewrite Hm. simpl. destruct c as [c|]; [|done].
    rewrite (concretize_symbols_no_subdims c st Hm Hc).
    assert (existsb (λ v, in_mapper v st) (free_dimensions c) = false) as ->; [|done].
    induction (free_dimensions c) as [|v l IH]; simpl; [done|].
    by rewrite Hnone.
  - intros [z|s|d|o args|f args] st Hm; simpl; try done.
    + by apply concretize_dimension_no_subdims.
    + intros Hall. apply fold_left_unchanged.
      induction args as [|a args IH]; [done|]. simpl in Hall.
      apply andb_true_iff in Hall as [Ha Hargs]. constructor; [|by apply IH].
      by apply concretize_symbols_no_subdims.
    + intros Hall. apply fold_left_unchanged.
      induction args as [|a args IH]; [done|]. simpl in Hall.
      apply andb_true_iff in Hall as [Ha Hargs]. constructor; [|by apply IH].
      by apply concretize_symbols_no_subdims.
Qed.

Lemma concretize_Eq_no_subdims e st :
  mapper st = [] → no_subdims_Eq e = true → concretize_Eq e st = Ok st.
Proof.
  intros Hm [[Hl Hr]%andb_true_iff Hi]%andb_true_iff. unfold concretize_Eq.
  rewrite !concretize_symbols_no_subdims by done.
  apply fold_left_unchanged. rewrite List.forallb_forall in Hi.
  apply Forall_forall. intros d Hd%list_elem_of_In.
  by apply concretize_dimension_no_subdims; [|apply Hi].
Qed.

End ConcretizeFacts.

(** C5 (as amended). A second run of [concretize_subdims] on the output
    of a run that concretized a [SubDimension] mints thickness names again
    and changes the expressions. What holds:
    - on expressions without [SubDimension] and [MultiSubDimension], at any
      depth, [concretize_subdims] returns its input and leaves the registry
      as it is, so that a second run changes nothing;
    - within one run a dimension is concretized once: after the handler of
      a [SubDimension] or a [MultiSubDimension] ran, the dimension is in the
      mapper, and a dimension that is in the mapper is skipped, with the
      mapper and the registry unchanged. *)
Theorem concretize_subdims_fixed_point :
  (∀ exprs sregistry,
     forallb Concretize.no_subdims_Eq exprs = true →
     Concretize.concretize_subdims exprs sregistry = Ok (exprs, sregistry))
  ∧ (∀ d st st',
       (∃ n p a b t, d = Concretize.SubDimension n p a b t)
       ∨ (∃ n p t f i, d = Concretize.MultiSubDimension n p t f i) →
       Concretize.concretize_dimension d st = Ok st' →
       Concretize.in_mapper d st' = true
       ∧ Concretize.concretize_dimension d st' = Ok st')
  ∧ (∀ d st,
       Concretize.in_mapper d st = true →
       Concretize.concretize_dimension d st = Ok st).
Proof.
  split; [|split].
  - intros exprs reg Hall. unfold Concretize.concretize_subdims.
    assert (Concretize._concretize_subdims exprs (Concretize.mkState [] [] [] reg)
            = Ok (Concretize.mkState [] [] [] reg)) as ->; [|done].
    apply fold_left_unchanged. rewrite List.forallb_forall in Hall.
    apply Forall_forall. intros e He%list_elem_of_In.
    by apply concretize_Eq_no_subdims; [|apply Hall].
  - intros d st st' [(n & p & a & b & t & ->)|(n & p & t & f & i & ->)] Hrun.
    + apply concretize_SubDimension_mapped in Hrun as Hin.
      split; [done|]. by apply concretize_dimension_skip.
    + apply concretize_MultiSubDimension_mapped in Hrun as Hin.
      split; [done|]. by apply concretize_dimension_skip.
  - apply concretize_dimension_skip.
Qed.

(** [plain_eq] holds no subdimension: it is returned as it is. *)
Lemma concretize_subdims_plain_eq :
  Concretize.concretize_subdims [plain_eq] ∅ = Ok ([plain_eq], ∅).
Proof.
  apply (proj1 concretize_subdims_fixed_point). reflexivity.
Defined.

(** C5, the claim as stated fails: the second run on the output of the
    first one renames the thickness symbols [xi_ltkn0] and [xi_rtkn0] to
    [xi_ltkn00] and [xi_rtkn00]. *)
Lemma concretize_subdims_twice_changes :
  ∃ reg1 reg2,
    Concretize.concretize_subdims [subdim_eq "xi_ltkn" "xi_rtkn"] ∅
    = Ok ([subdim_eq "xi_ltkn0" "xi_rtkn0"], reg1)
    ∧ Concretize.concretize_subdims [subdim_eq "xi_ltkn0" "xi_rtkn0"] reg1
      = Ok ([subdim_eq "xi_ltkn00" "xi_rtkn00"], reg2)
    ∧ subdim_eq "xi_ltkn00" "xi_rtkn00" ≠ subdim_eq "xi_ltkn0" "xi_rtkn0".
Proof.
  eexists _, _. split; [vm_compute; reflexivity|].
  split; [vm_compute; reflexivity|]. discriminate.
Qed.
